(** * RL-ling: the terminal snake game of [game.py]

    A shallow embedding of the game loop engine: the pixel buffer
    ([Screen]), the multi-segment mover ([Snake]), the static marker
    ([Food]) and the loop itself ([Controller]).

    Python objects are mutable and methods may raise after having mutated
    them, and [print] writes to the terminal on the way.  Every method is
    therefore a computation in a small monad that threads the object, may
    raise a Python exception (keeping the state reached so far) and
    collects what was printed. *)

From stdpp Require Import base option list strings pretty.
From Stdlib Require Import ZArith Lia.

Local Open Scope Z_scope.

(** ** Python values that reach the terminal *)

#[warnings="-register-all"]
Inductive pyval : Type :=
  | VNone
  | VStr (s : string)
  | VList (l : list pyval).

(** One call of [print]: its positional arguments. *)
Inductive out : Type :=
  | Printed (args : list pyval).

(** The exceptions the modelled code can raise. *)
Inductive exn : Type :=
  | IndexError
  | ZeroDivisionError
  | AttributeError
  | SystemExit.

Inductive result (A : Type) : Type :=
  | Ok (a : A)
  | Raise (e : exn).
Arguments Ok {A} a.
Arguments Raise {A} e.

(** ** The monad of methods: state, exception, output *)

Definition M (S A : Type) : Type := S -> result A * S * list out.

Definition ret {S A} (a : A) : M S A := fun s => (Ok a, s, []).

Definition bind {S A B} (m : M S A) (f : A -> M S B) : M S B :=
  fun s =>
    match m s with
    | (Ok a, s1, o1) =>
        match f a s1 with
        | (r, s2, o2) => (r, s2, o1 ++ o2)
        end
    | (Raise e, s1, o1) => (Raise e, s1, o1)
    end.

Definition raise {S A} (e : exn) : M S A := fun s => (Raise e, s, []).
Definition get {S} : M S S := fun s => (Ok s, s, []).
Definition put {S} (s : S) : M S unit := fun _ => (Ok tt, s, []).
Definition print {S} (args : list pyval) : M S unit :=
  fun s => (Ok tt, s, [Printed args]).

(** Run a method of a sub-object [T] held in a field of [S]. *)
Definition zoom {S T A} (proj : S -> T) (upd : T -> S -> S) (m : M T A) : M S A :=
  fun s =>
    match m (proj s) with
    | (r, t, o) => (r, upd t s, o)
    end.

Declare Scope py_scope.
Delimit Scope py_scope with py.
Notation "'let*' x := m 'in' k" := (bind m (fun x => k))
  (at level 10, x name, m at level 100, k at level 200) : py_scope.
Notation "m ;; k" := (bind m (fun _ => k))
  (at level 100, k at level 200, right associativity) : py_scope.
Local Open Scope py_scope.

(** A [for] loop whose body may [return]: the body answers [Some v] for
    [return v] and [None] to go on with the next element. *)
Fixpoint for_each {S A R} (l : list A) (body : A -> M S (option R)) : M S (option R) :=
  match l with
  | [] => ret None
  | x :: l' =>
      let* r := body x in
      match r with
      | Some v => ret (Some v)
      | None => for_each l' body
      end
  end.

(** A [for] loop without [return]. *)
Fixpoint for_ {S A} (l : list A) (body : A -> M S unit) : M S unit :=
  match l with
  | [] => ret tt
  | x :: l' => body x ;; for_ l' body
  end.

(** ** Python lists and ranges *)

(** [range(start, stop, step)] as CPython computes it. *)
Definition range_len (start stop step : Z) : Z :=
  if 0 <? step then
    if start <? stop then (stop - start - 1) / step + 1 else 0
  else if step <? 0 then
    if stop <? start then (start - stop - 1) / (- step) + 1 else 0
  else 0.

Definition range3 (start stop step : Z) : list Z :=
  (fun i : nat => start + Z.of_nat i * step) <$> seq 0 (Z.to_nat (range_len start stop step)).

Definition range (n : Z) : list Z := range3 0 n 1.

Definition len {A} (l : list A) : Z := Z.of_nat (length l).

(** An index as Python resolves it: a negative one counts from the end. *)
Definition norm_index {A} (l : list A) (i : Z) : option nat :=
  let j := if i <? 0 then i + len l else i in
  if (0 <=? j) && (j <? len l) then Some (Z.to_nat j) else None.

(** [l[i]] *)
Definition getitem {S A} (l : list A) (i : Z) : M S A :=
  match norm_index l i with
  | Some k =>
      match l !! k with
      | Some x => ret x
      | None => raise IndexError
      end
  | None => raise IndexError
  end.

(** [l[i] = x]; answers the list after the assignment. *)
Definition setitem {S A} (l : list A) (i : Z) (x : A) : M S (list A) :=
  match norm_index l i with
  | Some k => ret (<[k := x]> l)
  | None => raise IndexError
  end.

(** [l.pop(0)]; answers the popped element and the list left. *)
Definition pop0 {S A} (l : list A) : M S (A * list A) :=
  match l with
  | [] => raise IndexError
  | x :: l' => ret (x, l')
  end.

(** [" ".join(l)] and the like. *)
Fixpoint join (sep : string) (l : list string) : string :=
  match l with
  | [] => ""
  | [s] => s
  | s :: l' => s +:+ sep +:+ join sep l'
  end.

(** [str(z)] of an [int], as an f-string formats it. *)
Definition str_int (z : Z) : string := pretty z.

Definition pos_t : Type := Z * Z.
Definition color_t : Type := Z * Z * Z.
(** a pixel is a (xter, color) tuple *)
Definition pixel_t : Type := option string * color_t.

Definition ESC : string := String (Ascii.ascii_of_nat 27) "".
Definition NL : string := String (Ascii.ascii_of_nat 10) "".

(** ** class Screen *)

Module Screen.

Record t : Type := mk {
  _lines_shown : Z;
  color : color_t;
  width : Z;
  height : Z;
  D_PIXEL : pixel_t;
  pixels : list (list pixel_t);
  bgd_xter : string;
  errors : list string
}.

Definition with_pixels (px : list (list pixel_t)) (s : t) : t :=
  mk (_lines_shown s) (color s) (width s) (height s) (D_PIXEL s) px
     (bgd_xter s) (errors s).

Definition with_errors (es : list string) (s : t) : t :=
  mk (_lines_shown s) (color s) (width s) (height s) (D_PIXEL s) (pixels s)
     (bgd_xter s) es.

(** [[[D_PIXEL] * height for _ in range(width)]]: [width] rows, each a
    fresh list of [height] cells (a negative count gives the empty list). *)
Definition blank (d : pixel_t) (width height : Z) : list (list pixel_t) :=
  (fun _ => replicate (Z.to_nat height) d) <$> range width.

(** [Screen(width, height, color=(0, 0, 0))] *)
Definition init (width height : Z) (color : color_t) : t :=
  let d : pixel_t := (None, color) in
  mk 0 color width height d (blank d width height) "®" [].

(** [clear(color=None)]: the argument only rebinds a local. *)
Definition clear : M t unit :=
  let* s := get in
  put (with_pixels (blank (D_PIXEL s) (width s) (height s)) s).

(** The guard of [set_pixel], with Python's short-circuit [or]:
    [self.pixels[0]] is evaluated only when the first three tests fail. *)
Definition overflow (x y : Z) : M t bool :=
  let* s := get in
  if y <? 0 then ret true
  else if x <? 0 then ret true
  else if len (pixels s) <? y then ret true
  else
    let* row0 := getitem (pixels s) 0 in
    ret (len row0 <? x).

Definition overflow_msg (x y : Z) : string :=
  "Screen overflow: x = " +:+ str_int x +:+ ", y = " +:+ str_int y.

(** [set_pixel(x, y, pixel)].  The rows are distinct list objects, so
    assigning into [self.pixels[y]] changes that row of the grid only. *)
Definition set_pixel (x y : Z) (pixel : pixel_t) : M t unit :=
  let* c := overflow x y in
  if c then
    let* s := get in
    put (with_errors (errors s ++ [overflow_msg x y]) s)
  else
    let* s := get in
    let* row := getitem (pixels s) y in
    let* row' := setitem row x pixel in
    match norm_index (pixels s) y with
    | Some k => put (with_pixels (<[k := row']> (pixels s)) s)
    | None => raise IndexError
    end.

Definition _color_text (color text : string) : string := color +:+ text.
Definition _bgd (text : string) : string := _color_text (ESC +:+ "[1;34m") text.
Definition _fgd (text : string) : string := _color_text (ESC +:+ "[1;31m") text.

Definition _draw_pixel (s : t) (pixel : pixel_t) : string :=
  let '(xter, _) := pixel in
  match xter with
  | None => _bgd (bgd_xter s)
  | Some c => _fgd c
  end.

(** [show()]: clears the terminal, then prints the bordered page. *)
Definition show : M t unit :=
  print [VStr (ESC +:+ "[2J" +:+ ESC +:+ "[H")] ;;
  let* s := get in
  let edg := _bgd "│" in
  let tlgd := _bgd "┌" in
  let trgd := _bgd "┐" in
  let blgd := _bgd "└" in
  let brgd := _bgd "┘" in
  let yedge := _bgd "─" in
  let* row0 := getitem (pixels s) 0 in
  let bar := join " " (replicate (length row0) yedge) in
  let top := tlgd +:+ bar +:+ trgd +:+ NL in
  let bottom := NL +:+ blgd +:+ bar +:+ brgd in
  let page :=
    join NL ((fun row => edg +:+ join " " (_draw_pixel s <$> row) +:+ edg) <$> pixels s) in
  let page := top +:+ page +:+ bottom in
  print [VStr page].

End Screen.

(** ** class World

    The objects of a world are held by reference: the snake the controller
    moves is the very object the world draws.  [obj_ref] names the two
    objects a controller allocates. *)

Inductive obj_ref : Type :=
  | ActorRef
  | FoodRef.

Module World.

Record t : Type := mk {
  width : Z;
  height : Z;
  objects : list obj_ref
}.

(** [World(width, height)] *)
Definition init (width height : Z) : t := mk width height [].

Definition add_object (object : obj_ref) : M t unit :=
  let* w := get in
  put (mk (width w) (height w) (objects w ++ [object])).

End World.

(** The reference a [WObject] keeps to its world ([None] is Python's
    [None]); it is only read, so methods take the referenced [World.t] as
    an argument. *)
Inductive world_ref : Type :=
  | TheWorld.

(** [color or (1, 1, 1)] *)
Definition color_or_default (color : option color_t) : color_t :=
  match color with
  | Some c => c
  | None => (1, 1, 1)
  end.

(** [character or "*"]: [None] and the empty string are both falsy. *)
Definition character_or_default (character : option string) : string :=
  match character with
  | Some c => if String.eqb c "" then "*" else c
  | None => "*"
  end.

(** ** class Snake(WObject) *)

Module Snake.

Record t : Type := mk {
  width : Z;
  height : Z;
  pos : pos_t;
  world : option world_ref;
  color : color_t;
  character : string;
  body : list pos_t;
  direction : pos_t;
  speed : Z
}.

Definition with_body (b : list pos_t) (s : t) : t :=
  mk (width s) (height s) (pos s) (world s) (color s) (character s) b
     (direction s) (speed s).

Definition with_pos (p : pos_t) (s : t) : t :=
  mk (width s) (height s) p (world s) (color s) (character s) (body s)
     (direction s) (speed s).

Definition with_direction (d : pos_t) (s : t) : t :=
  mk (width s) (height s) (pos s) (world s) (color s) (character s) (body s)
     d (speed s).

(** [_create_snake(start, length)], run on the list being built. *)
Definition _create_snake (start : pos_t) (length : Z) : M (list pos_t) unit :=
  let '(x, y) := start in
  put (replicate (Z.to_nat length) (0, 0)) ;;
  for_ (range length) (fun i =>
    let* snake := get in
    let* snake' := setitem snake i (x, y + i) in
    put snake').

(** [Snake(pos, world, color, length=1, direction=(1, 0), speed=1, character)] *)
Definition init (pos : pos_t) (world : option world_ref) (color : option color_t)
    (length : Z) (direction : pos_t) (speed : Z) (character : option string) : t :=
  mk 1 1 pos world (color_or_default color) (character_or_default character)
     (_create_snake pos length []).1.2 direction speed.

(** [x % w] on [int]s: the remainder has the sign of the divisor, as
    [Z.modulo] has; a zero divisor raises. *)
Definition py_mod {S} (a b : Z) : M S Z :=
  if b =? 0 then raise ZeroDivisionError else ret (a `mod` b).

(** [_move(pos, dx, dy, w, h)] *)
Definition _move {S} (pos : pos_t) (dx dy w h : Z) : M S pos_t :=
  let '(x, y) := pos in
  let x := x + dx in
  let y := y + dy in
  let* x' := py_mod x w in
  let* y' := py_mod y h in
  ret (x', y').

(** [self.world.width] and [self.world.height] *)
Definition world_attrs (heap : World.t) : M t (Z * Z) :=
  let* s := get in
  match world s with
  | Some TheWorld => ret (World.width heap, World.height heap)
  | None => raise AttributeError
  end.

(** [translate(dx, dy)] *)
Definition translate (heap : World.t) (dx dy : Z) : M t unit :=
  let* s := get in
  for_ (range3 (len (body s) - 1) 0 (-1)) (fun i =>
    let* s := get in
    let* prev := getitem (body s) (i - 1) in
    let* b := setitem (body s) i prev in
    put (with_body b s)) ;;
  let* s := get in
  let* head := getitem (body s) 0 in
  let* wh := world_attrs heap in
  let* head' := _move head dx dy wh.1 wh.2 in
  let* b := setitem (body s) 0 head' in
  put (with_body b s) ;;
  let* s := get in
  let* p := getitem (body s) 0 in
  put (with_pos p s).

(** [move()] *)
Definition move (heap : World.t) : M t unit :=
  let* s := get in
  let '(dx, dy) := direction s in
  let dx := dx * speed s in
  let dy := dy * speed s in
  translate heap dx dy.

(** [draw(screen)] *)
Definition draw (s : t) : M Screen.t unit :=
  for_ (body s) (fun pos =>
    Screen.set_pixel pos.1 pos.2 (Some (character s), (1, 1, 1))).

(** [place(x, y)], inherited from [WObject]: it sets [pos] and nothing
    else. *)
Definition place (x y : Z) : M t unit :=
  let* s := get in
  put (with_pos (x, y) s).

(** [collides_with(other)], inherited from [WObject]: its body is [pass]. *)
Definition collides_with (other : pos_t) : M t (option bool) :=
  ret None.

End Snake.

(** ** class Food(WObject) *)

Module Food.

Record t : Type := mk {
  width : Z;
  height : Z;
  pos : pos_t;
  world : option world_ref;
  color : color_t;
  character : string
}.

(** [Food(pos, world=None, color=None, character=None)] *)
Definition init (pos : pos_t) (world : option world_ref) (color : option color_t)
    (character : option string) : t :=
  mk 1 1 pos world (color_or_default color) (character_or_default character).

(** [draw(screen)] *)
Definition draw (f : t) : M Screen.t unit :=
  Screen.set_pixel (pos f).1 (pos f).2 (Some (character f), (1, 1, 1)).

Definition with_pos (p : pos_t) (f : t) : t :=
  mk (width f) (height f) p (world f) (color f) (character f).

(** [move(dx, dy)], inherited from [WObject]. *)
Definition move (dx dy : Z) : M t unit :=
  let* f := get in
  let '(x, y) := pos f in
  put (with_pos (x + dx, y + dy) f).

(** [place(x, y)], inherited from [WObject]. *)
Definition place (x y : Z) : M t unit :=
  let* f := get in
  put (with_pos (x, y) f).

(** [collides_with(other)], inherited from [WObject]: its body is [pass]. *)
Definition collides_with (other : pos_t) : M t (option bool) :=
  ret None.

End Food.

(** ** The input source

    One poll of [_Getch] with a timeout: a character, no key ([None]), or
    the interrupt keystroke, on which the Unix reader prints a notice and
    exits the process. *)

Inductive poll : Type :=
  | Key (ch : option string)
  | Interrupt.

(** ** class Controller *)

(** The lists the diagnostics dictionary refers to.  [_add_error] stores
    the list object itself, not a copy, so an entry shows whatever the list
    holds when it is printed. *)
Inductive list_ref : Type :=
  | ScreenErrors
  | InputBuffer.

Module Controller.

Record t : Type := mk {
  w : Z;
  h : Z;
  screen : Screen.t;
  world : World.t;
  exit_signal : string;
  actor : Snake.t;
  food : Food.t;
  _input_buffer : list (option string);
  _MAX_INPUT_BUFFER : Z;
  (** a [dict], in insertion order; each value is a one-element list *)
  errors : list (string * list list_ref)
}.

Definition with_screen (x : Screen.t) (c : t) : t :=
  mk (w c) (h c) x (world c) (exit_signal c) (actor c) (food c)
     (_input_buffer c) (_MAX_INPUT_BUFFER c) (errors c).

Definition with_actor (x : Snake.t) (c : t) : t :=
  mk (w c) (h c) (screen c) (world c) (exit_signal c) x (food c)
     (_input_buffer c) (_MAX_INPUT_BUFFER c) (errors c).

Definition with_exit_signal (x : string) (c : t) : t :=
  mk (w c) (h c) (screen c) (world c) x (actor c) (food c)
     (_input_buffer c) (_MAX_INPUT_BUFFER c) (errors c).

Definition with_input_buffer (x : list (option string)) (c : t) : t :=
  mk (w c) (h c) (screen c) (world c) (exit_signal c) (actor c) (food c)
     x (_MAX_INPUT_BUFFER c) (errors c).

Definition with_errors (x : list (string * list list_ref)) (c : t) : t :=
  mk (w c) (h c) (screen c) (world c) (exit_signal c) (actor c) (food c)
     (_input_buffer c) (_MAX_INPUT_BUFFER c) x.

Definition on_screen {A} (m : M Screen.t A) : M t A := zoom screen with_screen m.
Definition on_actor {A} (m : M Snake.t A) : M t A := zoom actor with_actor m.

(** [Controller(w=20, h=20)] *)
Definition init (w h : Z) : t :=
  let screen := Screen.init w h (0, 0, 0) in
  let world := World.init w h in
  let actor := Snake.init (0, 0) (Some TheWorld) None 9 (1, 0) 1 (Some "▀") in
  let world := (World.add_object ActorRef world).1.2 in
  let food := Food.init (10, 10) None None (Some "∆") in
  let world := (World.add_object FoodRef world).1.2 in
  mk w h screen world "q" actor food [] 10 [].

(** [World.draw(screen)] on the controller's world: each object draws
    itself in insertion order. *)
Definition world_draw : M t unit :=
  let* c := get in
  for_ (World.objects (world c)) (fun obj =>
    let* c := get in
    match obj with
    | ActorRef => on_screen (Snake.draw (actor c))
    | FoodRef => on_screen (Food.draw (food c))
    end).

(** [get_input()] *)
Definition get_input : M t (option string) :=
  let* c := get in
  let* r := for_each (range (len (_input_buffer c))) (fun _ =>
    let* c := get in
    let* popped := pop0 (_input_buffer c) in
    put (with_input_buffer popped.2 c) ;;
    match popped.1 with
    | Some ch => ret (Some ch)
    | None => ret None
    end) in
  ret r.

Definition deref (c : t) (r : list_ref) : pyval :=
  match r with
  | ScreenErrors => VList (VStr <$> Screen.errors (screen c))
  | InputBuffer =>
      VList ((fun e => match e with Some ch => VStr ch | None => VNone end)
               <$> _input_buffer c)
  end.

(** [_show_error()] *)
Definition _show_error : M t unit :=
  print [] ;;
  let* c := get in
  for_ (errors c) (fun '(name, error) =>
    print [VStr name; VStr ": "; VList (deref c <$> error)]) ;;
  print [].

(** [del d[name]] *)
Definition dict_del {V} (name : string) (d : list (string * V)) : list (string * V) :=
  filter (fun kv => negb (String.eqb kv.1 name)) d.

(** [d[name] = v]: a key already present keeps its place. *)
Fixpoint dict_set {V} (name : string) (v : V) (d : list (string * V)) : list (string * V) :=
  match d with
  | [] => [(name, v)]
  | (k, v') :: d' =>
      if String.eqb k name then (k, v) :: d' else (k, v') :: dict_set name v d'
  end.

Fixpoint dict_get {V} (name : string) (d : list (string * V)) : option V :=
  match d with
  | [] => None
  | (k, v) :: d' => if String.eqb k name then Some v else dict_get name d'
  end.

(** [_clear_error(name)] *)
Definition _clear_error (name : string) : M t unit :=
  let* c := get in
  match dict_get name (errors c) with
  | Some _ => put (with_errors (dict_del name (errors c)) c)
  | None => ret tt
  end.

(** [_add_error(error, name)] *)
Definition _add_error (error : list_ref) (name : string) : M t unit :=
  let* c := get in
  put (with_errors (dict_set name [error] (errors c)) c).

(** [_get_errors()] *)
Definition _get_errors : M t unit := _add_error ScreenErrors "screen".

(** [_move_actor()] *)
Definition _move_actor : M t unit :=
  let* c := get in
  on_actor (Snake.move (world c)).

Definition set_direction (d : pos_t) : M t unit :=
  let* c := get in
  put (with_actor (Snake.with_direction d (actor c)) c).

Definition when {S} (b : bool) (m : M S unit) : M S unit :=
  if b then m else ret tt.

(** [update()] *)
Definition update : M t unit :=
  let* ch := get_input in
  match ch with
  | Some ch =>
      when (String.eqb ch "w") (set_direction (0, -1)) ;;
      when (String.eqb ch "a") (set_direction (-1, 0)) ;;
      when (String.eqb ch "d") (set_direction (1, 0)) ;;
      when (String.eqb ch "s") (set_direction (0, 1))
  | None => ret tt
  end ;;
  let* c := get in
  on_actor (Snake.move (world c)) ;;
  on_screen Screen.clear ;;
  world_draw.

(** [set_exit_signal(signal)] *)
Definition set_exit_signal (signal : string) : M t unit :=
  let* c := get in
  put (with_exit_signal signal c).

(** [_received_exit_signal()] *)
Definition _received_exit_signal : M t bool :=
  let* c := get in
  let* r := for_each (range3 (len (_input_buffer c) - 1) (-1) (-1)) (fun i =>
    let* c := get in
    let* e := getitem (_input_buffer c) i in
    match e with
    | Some ch => if String.eqb ch (exit_signal c) then ret (Some true) else ret None
    | None => ret None
    end) in
  match r with
  | Some b => ret b
  | None => ret false
  end.

(** [self.getch(0.5)], given what the poll yields. *)
Definition getch (p : poll) : M t (option string) :=
  match p with
  | Key ch => ret ch
  | Interrupt => print [VStr "Interrupted"] ;; raise SystemExit
  end.

(** [_buffer_input()] *)
Definition _buffer_input (p : poll) : M t (option string) :=
  let* ch := getch p in
  let* c := get in
  (if _MAX_INPUT_BUFFER c <? len (_input_buffer c) then
     let* popped := pop0 (_input_buffer c) in
     put (with_input_buffer popped.2 c)
   else ret tt) ;;
  match ch with
  | Some k =>
      let* c := get in
      put (with_input_buffer (_input_buffer c ++ [Some k]) c)
  | None => ret tt
  end ;;
  _add_error InputBuffer "input buffer" ;;
  ret ch.

(** One pass through the body of the [while True] loop of [start];
    answers whether the [break] is taken. *)
Definition iteration (p : poll) : M t bool :=
  update ;;
  on_screen Screen.show ;;
  _get_errors ;;
  _show_error ;;
  _buffer_input p ;;
  _received_exit_signal.

(** Where the loop stands once the polls supplied are used up. *)
Inductive status : Type :=
  | RUNNING
  | TERMINATED.

(** The [while True] loop, driven by the successive results of the
    input polls. *)
Fixpoint loop (polls : list poll) : M t status :=
  match polls with
  | [] => ret RUNNING
  | p :: polls' =>
      let* stop := iteration p in
      if stop then ret TERMINATED else loop polls'
  end.

(** [start()] *)
Definition start (polls : list poll) : M t status :=
  on_screen Screen.show ;;
  loop polls.

End Controller.

(** * Auxiliary notions used to state the properties *)

(** A grid of [R] rows with [C] cells each. *)
Definition grid (R C : nat) (px : list (list pixel_t)) : Prop :=
  length px = R /\ Forall (fun row => length row = C) px.

(** What the descending copy loop of [Snake.translate] leaves: every
    segment takes the place of the one before it, the head stays. *)
Definition shift (l : list pos_t) : list pos_t :=
  match l with
  | [] => []
  | a :: _ => a :: removelast l
  end.

(** The outcome of [Snake.translate], case by case. *)
Definition translate_outcome (heap : World.t) (dx dy : Z) (s : Snake.t) :
    result unit * Snake.t * list out :=
  match Snake.body s with
  | [] => (Raise IndexError, s, [])
  | (x, y) :: _ =>
      let shifted := Snake.with_body (shift (Snake.body s)) s in
      match Snake.world s with
      | None => (Raise AttributeError, shifted, [])
      | Some TheWorld =>
          if World.width heap =? 0 then (Raise ZeroDivisionError, shifted, [])
          else if World.height heap =? 0 then (Raise ZeroDivisionError, shifted, [])
          else
            let head' := ((x + dx) `mod` World.width heap, (y + dy) `mod` World.height heap) in
            (Ok tt,
             Snake.with_pos head' (Snake.with_body (head' :: removelast (Snake.body s)) s),
             [])
      end
  end.

(** [n] successive calls of [Snake.move]. *)
Fixpoint moves (heap : World.t) (n : nat) : M Snake.t unit :=
  match n with
  | O => ret tt
  | Datatypes.S n' => Snake.move heap ;; moves heap n'
  end.

(** What [Controller.get_input] pops: the leading [None] entries and the
    first character after them; the answer and the buffer left. *)
Fixpoint first_key (l : list (option string)) : option string * list (option string) :=
  match l with
  | [] => (None, [])
  | None :: l' => first_key l'
  | Some ch :: l' => (Some ch, l')
  end.

(** The entry equals the exit signal ([None == "q"] is false). *)
Definition is_exit (signal : string) (e : option string) : bool :=
  match e with
  | Some ch => String.eqb ch signal
  | None => false
  end.

(** The eviction step of [_buffer_input]. *)
Definition evict (max : Z) (l : list (option string)) : list (option string) :=
  if max <? len l then tail l else l.

(** The append step of [_buffer_input]. *)
Definition push (ch : option string) (l : list (option string)) : list (option string) :=
  match ch with
  | Some k => l ++ [Some k]
  | None => l
  end.

(** The direction table of the game loop. *)
Definition key_direction (ch : string) : option pos_t :=
  if String.eqb ch "w" then Some (0, -1)
  else if String.eqb ch "a" then Some (-1, 0)
  else if String.eqb ch "s" then Some (0, 1)
  else if String.eqb ch "d" then Some (1, 0)
  else None.

(** The direction after a consumed input, if any. *)
Definition steer (ch : option string) (d : pos_t) : pos_t :=
  match ch with
  | Some k => default d (key_direction k)
  | None => d
  end.

(** [m] keeps [P], whether it returns or raises. *)
Definition preserves {S A} (P : S -> Prop) (m : M S A) : Prop :=
  forall s, P s -> P (m s).1.2.

(** The input buffer holds at most [_MAX_INPUT_BUFFER + 1] entries. *)
Definition bounded (c : Controller.t) : Prop :=
  len (Controller._input_buffer c) <= Controller._MAX_INPUT_BUFFER c + 1.

(** The input buffer holds no [None]. *)
Definition none_free (c : Controller.t) : Prop :=
  None ∉ Controller._input_buffer c.

(** [m] returns from every state in [P], with an answer and a state in [Q]. *)
Definition returns {S A} (P : S -> Prop) (m : M S A) (Q : A -> S -> Prop) : Prop :=
  forall s, P s -> exists a s' o, m s = (Ok a, s', o) /\ Q a s'.

(** A position [set_pixel] handles without raising on a grid of [R] rows
    and [C] columns: turned down by the guard, or inside the grid. *)
Definition safe_pos (R C : nat) (p : pos_t) : Prop :=
  p.2 < 0 \/ p.1 < 0 \/ Z.of_nat R < p.2 \/ Z.of_nat C < p.1 \/
  (0 <= p.2 < Z.of_nat R /\ 0 <= p.1 < Z.of_nat C).

(** A screen whose grid has the [R] rows and [C] columns its dimensions
    ask for. *)
Definition screen_ok (R C : nat) (s : Screen.t) : Prop :=
  (0 < R)%nat /\ grid R C (Screen.pixels s) /\
  Z.to_nat (Screen.width s) = R /\ Z.to_nat (Screen.height s) = C.

(** A controller on which an iteration of the loop cannot raise: the
    world fits the allocated grid, the actor is attached to the world and
    has a body, and nothing is drawn on the row or the column just past
    the grid. *)
Definition safe (R C : nat) (c : Controller.t) : Prop :=
  screen_ok R C (Controller.screen c) /\
  0 < World.width (Controller.world c) <= Z.of_nat C /\
  0 < World.height (Controller.world c) <= Z.of_nat R /\
  Snake.world (Controller.actor c) = Some TheWorld /\
  Snake.body (Controller.actor c) <> [] /\
  Forall (safe_pos R C) (Snake.body (Controller.actor c)) /\
  safe_pos R C (Food.pos (Controller.food c)) /\
  0 <= Controller._MAX_INPUT_BUFFER c.

(** The controller after the direction update of [update]. *)
Definition turned (ch : option string) (c : Controller.t) : Controller.t :=
  Controller.with_actor
    (Snake.with_direction (steer ch (Snake.direction (Controller.actor c)))
       (Controller.actor c)) c.

(** The line [_show_error] prints for one entry of the diagnostics. *)
Definition diagnostic_line (c : Controller.t) (entry : string * list list_ref) : out :=
  Printed [VStr entry.1; VStr ": "; VList (Controller.deref c <$> entry.2)].

(** The controller with the screen's error list emptied. *)
Definition clear_errors (c : Controller.t) : Controller.t :=
  Controller.with_screen (Screen.with_errors [] (Controller.screen c)) c.

(** The bounds violations recorded during one iteration: what the error
    list holds after the iteration when it was empty before. *)
Definition frame_errors (p : poll) (c : Controller.t) : list string :=
  Screen.errors (Controller.screen (Controller.iteration p (clear_errors c)).1.2).

(** What the diagnostics dictionary shows under ["screen"]. *)
Definition collected_screen_errors (c : Controller.t) : option (list pyval) :=
  match Controller.dict_get "screen" (Controller.errors c) with
  | Some refs => Some (Controller.deref c <$> refs)
  | None => None
  end.

(** The diagnostics collected in an iteration hold the violations of that
    iteration only. *)
Definition fresh_each_frame (p : poll) (c : Controller.t) : Prop :=
  forall (stop : bool) (c' : Controller.t) (o : list out),
    Controller.iteration p c = (Ok stop, c', o) ->
    collected_screen_errors c' = Some [VList (VStr <$> frame_errors p c)].

(** A property of the input buffer and its bound, as one of the controller. *)
Definition on_buffer (Q : list (option string) -> Z -> Prop) (c : Controller.t) : Prop :=
  Q (Controller._input_buffer c) (Controller._MAX_INPUT_BUFFER c).

(** A property of the screen, as one of the controller. *)
Definition of_screen (PS : Screen.t -> Prop) (c : Controller.t) : Prop :=
  PS (Controller.screen c).

(** The cell [pixels[y][x]] of a grid, for indices inside it. *)
Definition cell (px : list (list pixel_t)) (x y : nat) : option pixel_t :=
  match px !! y with
  | Some row => row !! x
  | None => None
  end.

(** The glyphs of a grid, colours dropped. *)
Definition glyphs (px : list (list pixel_t)) : list (list (option string)) :=
  (fun row : list pixel_t => (fst <$> row : list (option string))) <$> px.

(** How a glyph is rendered, given the background character. *)
Definition draw_glyph (bgd : string) (g : option string) : string :=
  match g with
  | None => Screen._bgd bgd
  | Some c => Screen._fgd c
  end.

(** The page [Screen.show] prints for given glyphs. *)
Definition page_of (bgd : string) (g : list (list (option string))) : string :=
  let bar := join " " (replicate (length (default [] (head g))) (Screen._bgd "─")) in
  (Screen._bgd "┌" +:+ bar +:+ Screen._bgd "┐" +:+ NL)
  +:+ join NL ((fun row => Screen._bgd "│" +:+ join " " (draw_glyph bgd <$> row)
                            +:+ Screen._bgd "│") <$> g)
  +:+ (NL +:+ Screen._bgd "└" +:+ bar +:+ Screen._bgd "┘").

(** The grid has the [width] rows of [height] cells the screen was built
    with. *)
Definition shaped (s : Screen.t) : Prop :=
  grid (Z.to_nat (Screen.width s)) (Z.to_nat (Screen.height s)) (Screen.pixels s).

(** The position [p] translated [k] times by the snake's step (direction
    times speed) and wrapped into the world. *)
Definition wrapped (heap : World.t) (s : Snake.t) (p : pos_t) (k : Z) : pos_t :=
  ((p.1 + k * ((Snake.direction s).1 * Snake.speed s)) `mod` World.width heap,
   (p.2 + k * ((Snake.direction s).2 * Snake.speed s)) `mod` World.height heap).

(** The input buffer holds at most one entry, a character. *)
Definition at_most_one (c : Controller.t) : Prop :=
  len (Controller._input_buffer c) <= 1 /\ None ∉ Controller._input_buffer c.

(** The input buffer is empty. *)
Definition drained (c : Controller.t) : Prop :=
  Controller._input_buffer c = [].

(** What a run of the loop never assigns: the dimensions, the world, the
    exit signal, the food, the bound of the buffer. *)
Definition fixed_part (c : Controller.t) :
    Z * Z * World.t * string * Food.t * Z :=
  (Controller.w c, Controller.h c, Controller.world c, Controller.exit_signal c,
   Controller.food c, Controller._MAX_INPUT_BUFFER c).

(** What no method of the screen assigns after construction. *)
Definition screen_fixed_part (s : Screen.t) : Z * color_t * Z * Z * pixel_t * string :=
  (Screen._lines_shown s, Screen.color s, Screen.width s, Screen.height s,
   Screen.D_PIXEL s, Screen.bgd_xter s).

(** What a move never assigns on the actor. *)
Definition actor_fixed_part (a : Snake.t) :
    Z * Z * option world_ref * color_t * string * Z :=
  (Snake.width a, Snake.height a, Snake.world a, Snake.color a, Snake.character a,
   Snake.speed a).

(** The input buffer as [print] shows it. *)
Definition buffer_value (l : list (option string)) : pyval :=
  VList ((fun e => match e with Some ch => VStr ch | None => VNone end) <$> l).

(** The position of the cell in column [cx] of row [cy]. *)
Definition at_cell (cx cy : nat) : pos_t := (Z.of_nat cx, Z.of_nat cy).

(** What a frame shows in a cell: the food where the food is, else the
    actor's glyph on the cells of its body, else the background. *)
Definition expected_pixel (c : Controller.t) (cx cy : nat) : pixel_t :=
  if decide (Food.pos (Controller.food c) = at_cell cx cy)
  then (Some (Food.character (Controller.food c)), (1, 1, 1))
  else if decide (at_cell cx cy ∈ Snake.body (Controller.actor c))
  then (Some (Snake.character (Controller.actor c)), (1, 1, 1))
  else Screen.D_PIXEL (Controller.screen c).

(** * Properties *)

(** ** The monad *)

Lemma bind_get {S B} (f : S -> M S B) (s : S) : bind get f s = f s s.
Proof. unfold bind, get. destruct (f s s) as [[r s2] o2]. reflexivity. Qed.

Lemma bind_ret {S A B} (a : A) (f : A -> M S B) (s : S) : bind (ret a) f s = f a s.
Proof. unfold bind, ret. destruct (f a s) as [[r s2] o2]. reflexivity. Qed.

Lemma bind_put {S B} (s' : S) (f : unit -> M S B) (s : S) : bind (put s') f s = f tt s'.
Proof. unfold bind, put. destruct (f tt s') as [[r s2] o2]. reflexivity. Qed.

Lemma bind_raise {S A B} (e : exn) (f : A -> M S B) (s : S) :
  bind (raise e) f s = (Raise e, s, []).
Proof. reflexivity. Qed.

Lemma bind_pure {S A B} (m : M S A) (f : A -> M S B) (s : S) (a : A) (s1 : S) :
  m s = (Ok a, s1, []) -> bind m f s = f a s1.
Proof. intros H. unfold bind. rewrite H. destruct (f a s1) as [[r s2] o2]. reflexivity. Qed.

Lemma bind_out {S A B} (m : M S A) (f : A -> M S B) (s : S) (a : A) (s1 : S) o1 :
  m s = (Ok a, s1, o1) ->
  bind m f s = ((f a s1).1.1, (f a s1).1.2, o1 ++ (f a s1).2).
Proof. intros H. unfold bind. rewrite H. destruct (f a s1) as [[r s2] o2]. reflexivity. Qed.

(** A computation that answers [Ok] after a [bind] did so in both parts. *)
Lemma bind_ok_inv {S A B} (m : M S A) (f : A -> M S B) (s s' : S) (b : B) o :
  bind m f s = (Ok b, s', o) ->
  exists a s1 o1 o2,
    m s = (Ok a, s1, o1) /\ f a s1 = (Ok b, s', o2) /\ o = o1 ++ o2.
Proof.
  unfold bind. destruct (m s) as [[[a|e] s1] o1]; [|discriminate].
  destruct (f a s1) as [[r s2] o2] eqn:Hf. intros [= -> -> <-].
  exists a, s1, o1, o2. done.
Qed.

Lemma bind_assoc {S A B C} (m : M S A) (f : A -> M S B) (g : B -> M S C) (s : S) :
  bind (bind m f) g s = bind m (fun a => bind (f a) g) s.
Proof.
  unfold bind. destruct (m s) as [[[a|e] s1] o1]; [|reflexivity].
  destruct (f a s1) as [[[b|e] s2] o2]; [|reflexivity].
  destruct (g b s2) as [[r s3] o3]. rewrite app_assoc. reflexivity.
Qed.

(** Run the leading pure steps of a computation applied to a state. *)
Ltac msimpl :=
  repeat first
    [ rewrite bind_assoc | rewrite bind_get | rewrite bind_ret
    | rewrite bind_put | rewrite bind_raise ].

Lemma bind_state {S A B} (m : M S A) (f : A -> M S B) (s : S) :
  (bind m f s).1.2 =
    match (m s).1.1 with
    | Ok a => (f a (m s).1.2).1.2
    | Raise _ => (m s).1.2
    end.
Proof.
  unfold bind. destruct (m s) as [[[a|e] s1] o1]; [|reflexivity].
  simpl. destruct (f a s1) as [[r s2] o2]. reflexivity.
Qed.

Lemma bind_result {S A B} (m : M S A) (f : A -> M S B) (s : S) :
  (bind m f s).1.1 =
    match (m s).1.1 with
    | Ok a => (f a (m s).1.2).1.1
    | Raise e => Raise e
    end.
Proof.
  unfold bind. destruct (m s) as [[[a|e] s1] o1]; [|reflexivity].
  simpl. destruct (f a s1) as [[r s2] o2]. reflexivity.
Qed.

(** ** Lists, indices and ranges *)

Lemma len_nonneg {A} (l : list A) : 0 <= len l.
Proof. unfold len. lia. Qed.

Lemma len_app {A} (l1 l2 : list A) : len (l1 ++ l2) = len l1 + len l2.
Proof. unfold len. rewrite length_app. lia. Qed.

Lemma len_cons {A} (x : A) (l : list A) : len (x :: l) = len l + 1.
Proof. unfold len. simpl. lia. Qed.

Lemma norm_index_in {A} (l : list A) (i : Z) :
  0 <= i < len l -> norm_index l i = Some (Z.to_nat i).
Proof.
  intros Hi. unfold norm_index.
  destruct (Z.ltb_spec i 0); [lia|].
  destruct (Z.leb_spec 0 i); [|lia].
  destruct (Z.ltb_spec i (len l)); [|lia].
  reflexivity.
Qed.

Lemma norm_index_out {A} (l : list A) (i : Z) :
  len l <= i -> norm_index l i = None.
Proof.
  intros Hi. pose proof (len_nonneg l). unfold norm_index.
  destruct (Z.ltb_spec i 0); [lia|].
  destruct (Z.ltb_spec i (len l)); [lia|].
  rewrite andb_false_r. reflexivity.
Qed.

Lemma getitem_in {S A} (l : list A) (i : Z) (x : A) (s : S) :
  0 <= i -> l !! Z.to_nat i = Some x -> getitem l i s = (Ok x, s, []).
Proof.
  intros Hi Hx. unfold getitem.
  rewrite norm_index_in.
  - rewrite Hx. reflexivity.
  - apply lookup_lt_Some in Hx. unfold len. lia.
Qed.

Lemma getitem_out {S A} (l : list A) (i : Z) (s : S) :
  len l <= i -> getitem l i s = (Raise IndexError, s, []).
Proof. intros Hi. unfold getitem. rewrite norm_index_out by done. reflexivity. Qed.

Lemma setitem_in {S A} (l : list A) (i : Z) (x : A) (s : S) :
  0 <= i < len l -> setitem l i x s = (Ok (<[Z.to_nat i := x]> l), s, []).
Proof. intros Hi. unfold setitem. rewrite norm_index_in by done. reflexivity. Qed.

Lemma setitem_out {S A} (l : list A) (i : Z) (x : A) (s : S) :
  len l <= i -> setitem l i x s = (Raise IndexError, s, []).
Proof. intros Hi. unfold setitem. rewrite norm_index_out by done. reflexivity. Qed.

Lemma range3_down_nil (n stop : Z) : n <= stop -> range3 n stop (-1) = [].
Proof.
  intros Hn. unfold range3, range_len. simpl.
  destruct (Z.ltb_spec stop n); [lia|]. reflexivity.
Qed.

Lemma range3_down_cons (n stop : Z) :
  stop < n -> range3 n stop (-1) = n :: range3 (n - 1) stop (-1).
Proof.
  intros Hn. unfold range3, range_len. simpl.
  destruct (Z.ltb_spec stop n); [|lia].
  rewrite !Z.div_1_r.
  replace (Z.to_nat (n - stop - 1 + 1)) with (Datatypes.S (Z.to_nat (n - stop - 1))) by lia.
  simpl. f_equal; [lia|].
  rewrite <- fmap_S_seq, <- list_fmap_compose.
  destruct (Z.ltb_spec stop (n - 1)).
  - replace (Z.to_nat (n - 1 - stop - 1 + 1)) with (Z.to_nat (n - stop - 1)) by lia.
    apply list_fmap_ext. intros i x _. simpl. lia.
  - replace (Z.to_nat (n - stop - 1)) with 0%nat by lia. reflexivity.
Qed.

Lemma range_length (n : Z) : length (range n) = Z.to_nat n.
Proof.
  unfold range, range3, range_len. simpl.
  rewrite length_fmap, length_seq.
  destruct (Z.ltb_spec 0 n).
  - rewrite Z.div_1_r. lia.
  - lia.
Qed.

(** ** Screen *)

Lemma blank_grid (d : pixel_t) (w h : Z) :
  grid (Z.to_nat w) (Z.to_nat h) (Screen.blank d w h).
Proof.
  unfold grid, Screen.blank. split.
  - rewrite length_fmap. apply range_length.
  - apply Forall_fmap, Forall_forall. intros i _. simpl. apply length_replicate.
Qed.

Lemma overflow_eval (s : Screen.t) (x y : Z) (row0 : list pixel_t) rest :
  Screen.pixels s = row0 :: rest ->
  Screen.overflow x y s =
    (Ok ((y <? 0) || (x <? 0) || (len (Screen.pixels s) <? y) || (len row0 <? x)), s, []).
Proof.
  intros Hpx. unfold Screen.overflow, bind, get.
  destruct (y <? 0); [reflexivity|].
  destruct (x <? 0); [reflexivity|].
  destruct (len (Screen.pixels s) <? y); [reflexivity|].
  rewrite Hpx. reflexivity.
Qed.

Lemma set_pixel_reject (s : Screen.t) (x y : Z) (p : pixel_t) :
  Screen.overflow x y s = (Ok true, s, []) ->
  Screen.set_pixel x y p s =
    (Ok tt, Screen.with_errors (Screen.errors s ++ [Screen.overflow_msg x y]) s, []).
Proof. intros H. unfold Screen.set_pixel, bind. rewrite H. reflexivity. Qed.

Lemma grid_row (R C : nat) px (k : nat) :
  grid R C px -> (k < R)%nat -> exists row, px !! k = Some row /\ length row = C.
Proof.
  intros [HR HC] Hk.
  destruct (lookup_lt_is_Some_2 px k) as [row Hrow]; [lia|].
  exists row. split; [done|].
  eapply (Forall_lookup_1 _ _ _ _ HC Hrow).
Qed.

(** A write that passes the guard but falls on the row or the column just
    past the grid raises, and the screen is as before. *)
Lemma set_pixel_edge (s : Screen.t) (R C : nat) (x y : Z) (p : pixel_t) :
  grid R C (Screen.pixels s) -> (0 < R)%nat ->
  0 <= x <= Z.of_nat C -> 0 <= y <= Z.of_nat R ->
  y = Z.of_nat R \/ x = Z.of_nat C ->
  Screen.set_pixel x y p s = (Raise IndexError, s, []).
Proof.
  intros Hg HR Hx Hy Hedge.
  destruct (grid_row R C _ 0%nat Hg HR) as (row0 & Hrow0 & Hlen0).
  destruct (Screen.pixels s) as [|r0 rest] eqn:Hpx; [done|].
  simpl in Hrow0. injection Hrow0 as ->.
  unfold Screen.set_pixel, bind.
  rewrite (overflow_eval s x y row0 rest Hpx).
  assert (Hl : len (Screen.pixels s) = Z.of_nat R).
  { rewrite Hpx. unfold len. destruct Hg as [<- _]. done. }
  destruct (Z.ltb_spec y 0); [lia|].
  destruct (Z.ltb_spec x 0); [lia|].
  destruct (Z.ltb_spec (len (Screen.pixels s)) y); [lia|].
  destruct (Z.ltb_spec (len row0) x); [unfold len in *; lia|].
  simpl. unfold get. rewrite Hpx.
  destruct (Z.eq_dec y (Z.of_nat R)) as [->|Hne].
  - rewrite getitem_out; [reflexivity|]. rewrite <- Hpx. lia.
  - assert (Hk : (Z.to_nat y < R)%nat) by lia.
    rewrite <- Hpx in Hg.
    destruct (grid_row R C _ _ Hg Hk) as (row & Hrow & Hlen).
    rewrite Hpx in Hrow.
    rewrite (getitem_in _ y row) by (done || lia).
    rewrite setitem_out; [reflexivity|]. unfold len. lia.
Qed.

(** A write inside the allocated grid replaces exactly one cell. *)
Lemma set_pixel_inside (s : Screen.t) (R C : nat) (x y : Z) (p : pixel_t) :
  grid R C (Screen.pixels s) ->
  0 <= x < Z.of_nat C -> 0 <= y < Z.of_nat R ->
  exists row,
    Screen.pixels s !! Z.to_nat y = Some row /\
    Screen.set_pixel x y p s =
      (Ok tt,
       Screen.with_pixels (<[Z.to_nat y := <[Z.to_nat x := p]> row]> (Screen.pixels s)) s,
       []).
Proof.
  intros Hg Hx Hy.
  assert (HR : (0 < R)%nat) by lia.
  destruct (grid_row R C _ 0%nat Hg HR) as (row0 & Hrow0 & Hlen0).
  assert (Hk : (Z.to_nat y < R)%nat) by lia.
  destruct (grid_row R C _ _ Hg Hk) as (row & Hrow & Hlen).
  exists row. split; [done|].
  destruct (Screen.pixels s) as [|r0 rest] eqn:Hpx; [done|].
  simpl in Hrow0. injection Hrow0 as ->.
  unfold Screen.set_pixel, bind.
  rewrite (overflow_eval s x y row0 rest Hpx).
  assert (Hl : len (Screen.pixels s) = Z.of_nat R).
  { rewrite Hpx. unfold len. destruct Hg as [<- _]. done. }
  destruct (Z.ltb_spec y 0); [lia|].
  destruct (Z.ltb_spec x 0); [lia|].
  destruct (Z.ltb_spec (len (Screen.pixels s)) y); [lia|].
  destruct (Z.ltb_spec (len row0) x); [unfold len in *; lia|].
  simpl. unfold get. rewrite Hpx.
  rewrite (getitem_in _ y row) by (done || lia).
  rewrite setitem_in by (unfold len; lia).
  rewrite norm_index_in by (rewrite <- Hpx; lia).
  reflexivity.
Qed.

(** A write the guard turns down appends one message and leaves the grid. *)
Lemma set_pixel_outside (s : Screen.t) (R C : nat) (x y : Z) (p : pixel_t) :
  grid R C (Screen.pixels s) -> (0 < R)%nat ->
  y < 0 \/ x < 0 \/ Z.of_nat R < y \/ Z.of_nat C < x ->
  Screen.set_pixel x y p s =
    (Ok tt, Screen.with_errors (Screen.errors s ++ [Screen.overflow_msg x y]) s, []).
Proof.
  intros Hg HR Hout.
  destruct (grid_row R C _ 0%nat Hg HR) as (row0 & Hrow0 & Hlen0).
  destruct (Screen.pixels s) as [|r0 rest] eqn:Hpx; [done|].
  simpl in Hrow0. injection Hrow0 as ->.
  rewrite <- Hpx in Hg.
  apply set_pixel_reject.
  rewrite (overflow_eval s x y row0 rest Hpx). do 2 f_equal. f_equal.
  assert (Hl : len (Screen.pixels s) = Z.of_nat R).
  { unfold len. destruct Hg as [<- _]. done. }
  destruct (Z.ltb_spec y 0); [done|].
  destruct (Z.ltb_spec x 0); [done|].
  destruct (Z.ltb_spec (len (Screen.pixels s)) y); [done|].
  destruct (Z.ltb_spec (len row0) x); [done|].
  unfold len in *. lia.
Qed.

(** C1.  The bounds guard of [set_pixel] misses the claim on both sides.
    On the 2x2 screen the write at (2, 0), which lies outside
    [0, 2) x [0, 2), raises [IndexError] and records no error; on the
    screen of width 2 and height 3 the write at (0, 2), which lies inside
    [0, 2) x [0, 3), raises [IndexError] as well instead of changing the
    cell. *)
Theorem set_pixel_bounds_failing :
  Screen.set_pixel 2 0 (Some "*", (1, 1, 1)) (Screen.init 2 2 (0, 0, 0))
    = (Raise IndexError, Screen.init 2 2 (0, 0, 0), []) /\
  Screen.set_pixel 0 2 (Some "*", (1, 1, 1)) (Screen.init 2 3 (0, 0, 0))
    = (Raise IndexError, Screen.init 2 3 (0, 0, 0), []).
Proof. split; reflexivity. Qed.

Lemma init_grid (w h : Z) (c : color_t) :
  grid (Z.to_nat w) (Z.to_nat h) (Screen.pixels (Screen.init w h c)).
Proof. apply blank_grid. Qed.

(** C8.  The grid is allocated as [width] rows of [height] cells;
    [set_pixel] addresses it as [pixels[y][x]] behind a guard that compares
    [y] with the number of rows and [x] with the length of the first row
    by a strict greater-than.  So on a square n x n screen a write with
    x = n or y = n (the other coordinate in 0..n) passes the guard, raises
    [IndexError] and appends no error; and on a screen that is not square
    some coordinates inside [0, width) x [0, height) do the same: y = width
    when width < height, x = height when height < width. *)
Theorem permissive_bounds_check :
  (forall (w h : Z) (c : color_t),
     grid (Z.to_nat w) (Z.to_nat h) (Screen.pixels (Screen.init w h c))) /\
  (forall (s : Screen.t) (x y : Z) (row0 : list pixel_t) (rest : list (list pixel_t)),
     Screen.pixels s = row0 :: rest ->
     Screen.overflow x y s =
       (Ok ((y <? 0) || (x <? 0) || (len (Screen.pixels s) <? y) || (len row0 <? x)),
        s, [])) /\
  (forall (n : Z) (c : color_t) (x y : Z) (p : pixel_t),
     0 < n -> 0 <= x <= n -> 0 <= y <= n -> x = n \/ y = n ->
     Screen.set_pixel x y p (Screen.init n n c)
       = (Raise IndexError, Screen.init n n c, [])) /\
  (forall (w h : Z) (c : color_t) (x : Z) (p : pixel_t),
     0 < w < h -> 0 <= x < w ->
     Screen.set_pixel x w p (Screen.init w h c)
       = (Raise IndexError, Screen.init w h c, [])) /\
  (forall (w h : Z) (c : color_t) (y : Z) (p : pixel_t),
     0 < h < w -> 0 <= y < h ->
     Screen.set_pixel h y p (Screen.init w h c)
       = (Raise IndexError, Screen.init w h c, [])).
Proof.
  split; [exact init_grid|].
  split; [exact overflow_eval|].
  split; [|split].
  - intros n c x y p Hn Hx Hy Hedge.
    apply (set_pixel_edge _ (Z.to_nat n) (Z.to_nat n)); [apply init_grid|lia..].
  - intros w h c x p Hwh Hx.
    apply (set_pixel_edge _ (Z.to_nat w) (Z.to_nat h)); [apply init_grid|lia..].
  - intros w h c y p Hwh Hy.
    apply (set_pixel_edge _ (Z.to_nat w) (Z.to_nat h)); [apply init_grid|lia..].
Qed.

Lemma permissive_bounds_check_witness :
  Screen.set_pixel 3 1 (Some "*", (1, 1, 1)) (Screen.init 3 3 (0, 0, 0))
    = (Raise IndexError, Screen.init 3 3 (0, 0, 0), []) /\
  Screen.set_pixel 1 2 (Some "*", (1, 1, 1)) (Screen.init 2 4 (0, 0, 0))
    = (Raise IndexError, Screen.init 2 4 (0, 0, 0), []) /\
  Screen.set_pixel 2 1 (Some "*", (1, 1, 1)) (Screen.init 4 2 (0, 0, 0))
    = (Raise IndexError, Screen.init 4 2 (0, 0, 0), []).
Proof.
  pose proof permissive_bounds_check as (_ & _ & Hsq & Htall & Hwide).
  split; [|split].
  - apply (Hsq 3); lia.
  - apply (Htall 2 4); lia.
  - apply (Hwide 4 2); lia.
Defined.

(** ** Snake *)

Lemma with_body_id (s : Snake.t) : Snake.with_body (Snake.body s) s = s.
Proof. destruct s. reflexivity. Qed.

Lemma with_body_twice (b b' : list pos_t) (s : Snake.t) :
  Snake.with_body b (Snake.with_body b' s) = Snake.with_body b s.
Proof. reflexivity. Qed.

Lemma shift_snoc (a z : pos_t) (l : list pos_t) :
  shift ((a :: l) ++ [z]) = a :: a :: l.
Proof.
  unfold shift. cbn [app]. f_equal.
  exact (removelast_last (a :: l) z).
Qed.

Lemma shift_app_last (a y : pos_t) (l l2 : list pos_t) :
  a :: l = l2 ++ [y] -> shift (a :: l) ++ [y] = a :: a :: l.
Proof.
  intros E. unfold shift. rewrite E at 1. rewrite removelast_last.
  cbn [app]. rewrite <- E. reflexivity.
Qed.

Lemma shift_length (l : list pos_t) : length (shift l) = length l.
Proof.
  destruct l as [|a l]; [reflexivity|].
  destruct (exists_last (l:=a :: l)) as (l' & z & E); [done|].
  rewrite E. destruct l' as [|a' l']; [reflexivity|].
  rewrite shift_snoc. rewrite length_app. simpl. lia.
Qed.

Lemma removelast_length {A} (l : list A) : length (removelast l) = Nat.pred (length l).
Proof.
  destruct l as [|a l]; [reflexivity|].
  destruct (exists_last (l:=a :: l)) as (l' & z & E); [done|].
  rewrite E, removelast_last, length_app. simpl. lia.
Qed.

Lemma removelast_lookup {A} (l : list A) (i : nat) :
  (S i < length l)%nat -> removelast l !! i = l !! i.
Proof.
  intros Hi. destruct l as [|a l]; [simpl in Hi; lia|].
  destruct (exists_last (l:=a :: l)) as (l' & z & E); [done|].
  rewrite E in *. rewrite removelast_last. rewrite length_app in Hi. simpl in Hi.
  rewrite lookup_app_l by lia. reflexivity.
Qed.

(** The copy loop, run on the first [length l0] segments of the body. *)
Lemma shift_loop (l0 : list pos_t) : forall (suffix : list pos_t) (s : Snake.t),
  Snake.body s = l0 ++ suffix ->
  for_ (range3 (len l0 - 1) 0 (-1)) (fun i =>
    let* s := get in
    let* prev := getitem (Snake.body s) (i - 1) in
    let* b := setitem (Snake.body s) i prev in
    put (Snake.with_body b s)) s
  = (Ok tt, Snake.with_body (shift l0 ++ suffix) s, []).
Proof.
  induction l0 as [|z l1 IH] using rev_ind; intros suffix s Hb.
  - rewrite range3_down_nil by (unfold len; simpl; lia).
    simpl in *. rewrite <- Hb, with_body_id. reflexivity.
  - rewrite len_app. change (len [z]) with 1. replace (len l1 + 1 - 1) with (len l1) by lia.
    destruct l1 as [|a l1'].
    + rewrite range3_down_nil by (unfold len; simpl; lia).
      simpl in *. rewrite <- Hb, with_body_id. reflexivity.
    + destruct (exists_last (l:=a :: l1')) as (l2 & y & E); [done|].
      rewrite range3_down_cons by (rewrite len_cons; pose proof (len_nonneg l1'); lia).
      assert (Hy : Snake.body s !! Z.to_nat (len (a :: l1') - 1) = Some y).
      { rewrite Hb, E. rewrite len_app. change (len [y]) with 1.
        replace (Z.to_nat (len l2 + 1 - 1)) with (length l2) by (unfold len; lia).
        rewrite <- !app_assoc. rewrite lookup_app_r by lia.
        rewrite Nat.sub_diag. reflexivity. }
      assert (Hins : <[Z.to_nat (len (a :: l1')) := y]> (Snake.body s)
                     = (a :: l1') ++ ([y] ++ suffix)).
      { rewrite Hb. rewrite <- app_assoc.
        replace (Z.to_nat (len (a :: l1'))) with (length (a :: l1') + 0)%nat
          by (unfold len; lia).
        rewrite insert_app_r. reflexivity. }
      cbn [for_].
      erewrite bind_pure; cycle 1.
      { rewrite bind_get.
        erewrite bind_pure; cycle 1.
        { apply getitem_in; [|exact Hy]. rewrite len_cons. pose proof (len_nonneg l1'). lia. }
        erewrite bind_pure; cycle 1.
        { apply setitem_in. rewrite Hb, !len_app. change (len [z]) with 1.
          pose proof (len_nonneg (a :: l1')). pose proof (len_nonneg suffix). lia. }
        rewrite Hins. reflexivity. }
      rewrite (IH ([y] ++ suffix)) by reflexivity.
      rewrite with_body_twice, shift_snoc.
      rewrite (app_assoc (shift (a :: l1'))), (shift_app_last a y l1' l2 E).
      reflexivity.
Qed.

Lemma translate_eq (heap : World.t) (dx dy : Z) (s : Snake.t) :
  Snake.translate heap dx dy s = translate_outcome heap dx dy s.
Proof.
  unfold Snake.translate, translate_outcome.
  rewrite bind_get.
  erewrite bind_pure; cycle 1.
  { apply (shift_loop (Snake.body s) []). rewrite app_nil_r. reflexivity. }
  rewrite app_nil_r.
  destruct (Snake.body s) as [|[x y] rest] eqn:Hb.
  - assert (Hs : Snake.with_body [] s = s) by (rewrite <- Hb at 1; apply with_body_id).
    cbn [shift]. rewrite Hs, bind_get, Hb. reflexivity.
  - rewrite bind_get. cbn [Snake.body Snake.with_body shift].
    erewrite bind_pure; cycle 1.
    { apply (getitem_in _ 0 (x, y)); done. }
    unfold Snake.world_attrs. msimpl.
    change (Snake.world (Snake.with_body ((x, y) :: removelast ((x, y) :: rest)) s))
      with (Snake.world s).
    destruct (Snake.world s) as [[]|]; [|reflexivity].
    msimpl. cbn [fst snd]. unfold Snake._move, Snake.py_mod. msimpl.
    destruct (World.width heap =? 0); [reflexivity|].
    msimpl.
    destruct (World.height heap =? 0); [reflexivity|].
    msimpl. reflexivity.
Qed.

Lemma move_eq (heap : World.t) (s : Snake.t) :
  Snake.move heap s =
    translate_outcome heap
      ((Snake.direction s).1 * Snake.speed s) ((Snake.direction s).2 * Snake.speed s) s.
Proof.
  unfold Snake.move. rewrite bind_get.
  destruct (Snake.direction s) as [dx dy]. apply translate_eq.
Qed.

Lemma translate_outcome_length (heap : World.t) (dx dy : Z) (s : Snake.t) :
  length (Snake.body (translate_outcome heap dx dy s).1.2) = length (Snake.body s).
Proof.
  unfold translate_outcome.
  destruct (Snake.body s) as [|[x y] rest] eqn:Hb; [simpl; by rewrite Hb|].
  assert (Hsh : length (shift ((x, y) :: rest)) = length ((x, y) :: rest))
    by apply shift_length.
  destruct (Snake.world s) as [[]|]; [|exact Hsh].
  destruct (World.width heap =? 0); [exact Hsh|].
  destruct (World.height heap =? 0); [exact Hsh|].
  cbn [fst snd Snake.body Snake.with_pos Snake.with_body length].
  rewrite removelast_length. reflexivity.
Qed.

(** C3.  An actor with a non-empty body, attached to a world of positive
    width W and height H, is advanced by one [move()]: the call returns,
    the new head is the old head (x, y) translated by direction times speed
    and reduced modulo W and H, where the remainder lies in [0, W) and
    [0, H) whatever the sign of the translation and differs from the
    translated coordinate by a multiple of the modulus; the actor's [pos]
    is that new head. *)
Theorem move_wraps_head (heap : World.t) (s : Snake.t) (x y dx dy : Z)
    (rest : list pos_t) :
  Snake.body s = (x, y) :: rest ->
  Snake.world s = Some TheWorld ->
  0 < World.width heap ->
  0 < World.height heap ->
  dx = (Snake.direction s).1 * Snake.speed s ->
  dy = (Snake.direction s).2 * Snake.speed s ->
  exists s' : Snake.t,
    Snake.move heap s = (Ok tt, s', []) /\
    Snake.body s' !! 0%nat
      = Some ((x + dx) `mod` World.width heap, (y + dy) `mod` World.height heap) /\
    Snake.pos s' = ((x + dx) `mod` World.width heap, (y + dy) `mod` World.height heap) /\
    0 <= (x + dx) `mod` World.width heap < World.width heap /\
    0 <= (y + dy) `mod` World.height heap < World.height heap /\
    (World.width heap | x + dx - (x + dx) `mod` World.width heap) /\
    (World.height heap | y + dy - (y + dy) `mod` World.height heap).
Proof.
  intros Hb Hw HW HH -> ->.
  rewrite move_eq. unfold translate_outcome. rewrite Hb, Hw.
  destruct (Z.eqb_spec (World.width heap) 0); [lia|].
  destruct (Z.eqb_spec (World.height heap) 0); [lia|].
  eexists. split; [reflexivity|].
  split; [reflexivity|]. split; [reflexivity|].
  split; [apply Z.mod_pos_bound; lia|].
  split; [apply Z.mod_pos_bound; lia|].
  split.
  - exists ((x + (Snake.direction s).1 * Snake.speed s) `div` World.width heap).
    pose proof (Z.div_mod (x + (Snake.direction s).1 * Snake.speed s) (World.width heap)).
    lia.
  - exists ((y + (Snake.direction s).2 * Snake.speed s) `div` World.height heap).
    pose proof (Z.div_mod (y + (Snake.direction s).2 * Snake.speed s) (World.height heap)).
    lia.
Qed.

Lemma move_wraps_head_witness :
  exists s' : Snake.t,
    Snake.move (World.init 20 20)
      (Snake.init (0, 0) (Some TheWorld) None 3 (-1, 0) 1 None) = (Ok tt, s', []) /\
    Snake.body s' !! 0%nat = Some (19, 0) /\
    Snake.pos s' = (19, 0) /\
    0 <= 19 < 20 /\ 0 <= 0 < 20 /\ (20 | -1 - 19) /\ (20 | 0 - 0).
Proof.
  apply (move_wraps_head (World.init 20 20)
           (Snake.init (0, 0) (Some TheWorld) None 3 (-1, 0) 1 None)
           0 0 (-1) 0 [(0, 1); (0, 2)]);
    first [reflexivity | simpl; lia].
Defined.

(** C4.  After one [move()] that returns, every body segment but the head
    holds what the segment before it held; the body keeps its length
    through any number of calls, whether they return or raise; and on an
    actor with a non-empty body attached to a world of non-zero dimensions
    every call does return. *)
Theorem body_shift_invariant (heap : World.t) (s : Snake.t) :
  (forall (s' : Snake.t) o,
     Snake.move heap s = (Ok tt, s', o) ->
     forall i : nat, (0 < i < length (Snake.body s'))%nat ->
       Snake.body s' !! i = Snake.body s !! (i - 1)%nat) /\
  (forall n : nat, length (Snake.body (moves heap n s).1.2) = length (Snake.body s)) /\
  (Snake.body s <> [] -> Snake.world s = Some TheWorld ->
   World.width heap <> 0 -> World.height heap <> 0 ->
   forall n : nat, (moves heap n s).1.1 = Ok tt).
Proof.
  split; [|split].
  - intros s' o. rewrite move_eq. unfold translate_outcome.
    pose proof (removelast_length (Snake.body s)) as Hrl.
    pose proof (removelast_lookup (Snake.body s)) as Hrk.
    revert Hrl Hrk. generalize (removelast (Snake.body s)). intros rl Hrl Hrk.
    destruct (Snake.body s) as [|[x y] rest]; [discriminate|].
    destruct (Snake.world s) as [[]|]; [|discriminate].
    destruct (World.width heap =? 0); [discriminate|].
    destruct (World.height heap =? 0); [discriminate|].
    intros [= <- <-] i Hi.
    cbn [Snake.body Snake.with_pos Snake.with_body length Nat.pred] in *.
    destruct i as [|i]; [lia|].
    cbn [lookup list_lookup]. rewrite Hrk by lia.
    replace (S i - 1)%nat with i by lia. reflexivity.
  - intros n. revert s. induction n as [|n IH]; intros s; [reflexivity|].
    cbn [moves]. rewrite bind_state.
    pose proof (translate_outcome_length heap
      ((Snake.direction s).1 * Snake.speed s) ((Snake.direction s).2 * Snake.speed s) s) as Hl.
    rewrite <- move_eq in Hl.
    destruct (Snake.move heap s) as [[[[]|e] s1] o1]; cbn [fst snd] in *.
    + rewrite IH. exact Hl.
    + exact Hl.
  - intros Hb Hw HW HH n. revert s Hb Hw.
    induction n as [|n IH]; intros s Hb Hw; [reflexivity|].
    cbn [moves]. rewrite bind_result, move_eq. unfold translate_outcome.
    destruct (Snake.body s) as [|[x y] rest] eqn:Hbody; [done|].
    rewrite Hw.
    destruct (Z.eqb_spec (World.width heap) 0); [done|].
    destruct (Z.eqb_spec (World.height heap) 0); [done|].
    cbn [fst snd]. apply IH; [discriminate|exact Hw].
Qed.

Lemma body_shift_invariant_witness :
  let heap := World.init 20 20 in
  let s := Snake.init (0, 0) (Some TheWorld) None 3 (1, 0) 1 None in
  let s' := (Snake.move heap s).1.2 in
  Snake.body s' !! 1%nat = Snake.body s !! 0%nat /\
  length (Snake.body (moves heap 25 s).1.2) = length (Snake.body s) /\
  (moves heap 25 s).1.1 = Ok tt.
Proof.
  intros heap s s'.
  pose proof (body_shift_invariant heap s) as (H1 & H2 & H3).
  split; [|split].
  - apply (H1 s' []); [reflexivity | simpl; lia].
  - apply H2.
  - apply H3; [discriminate | reflexivity | discriminate | discriminate].
Defined.

(** ** Controller: the input buffer *)

Lemma with_input_buffer_id (c : Controller.t) :
  Controller.with_input_buffer (Controller._input_buffer c) c = c.
Proof. destruct c. reflexivity. Qed.

Lemma get_input_loop (idx : list Z) : forall c : Controller.t,
  length idx = length (Controller._input_buffer c) ->
  for_each idx (fun _ =>
    let* c := get in
    let* popped := pop0 (Controller._input_buffer c) in
    put (Controller.with_input_buffer popped.2 c) ;;
    match popped.1 with
    | Some ch => ret (Some ch)
    | None => ret None
    end) c
  = (Ok (first_key (Controller._input_buffer c)).1,
     Controller.with_input_buffer (first_key (Controller._input_buffer c)).2 c, []).
Proof.
  induction idx as [|i idx IH]; intros c Hlen.
  - destruct (Controller._input_buffer c) eqn:Hb; [|discriminate].
    simpl. rewrite <- Hb, with_input_buffer_id. reflexivity.
  - destruct (Controller._input_buffer c) as [|e l] eqn:Hb; [discriminate|].
    cbn [for_each]. msimpl. rewrite Hb. unfold pop0. msimpl. cbn [fst snd].
    destruct e as [ch|]; msimpl.
    + reflexivity.
    + rewrite IH by (simpl in *; lia). reflexivity.
Qed.

Lemma get_input_eq (c : Controller.t) :
  Controller.get_input c
  = (Ok (first_key (Controller._input_buffer c)).1,
     Controller.with_input_buffer (first_key (Controller._input_buffer c)).2 c, []).
Proof.
  unfold Controller.get_input. msimpl.
  erewrite bind_pure; cycle 1.
  { apply get_input_loop. rewrite range_length. unfold len. lia. }
  reflexivity.
Qed.

Lemma exit_scan (l0 : list (option string)) :
  forall (suffix : list (option string)) (c : Controller.t),
  Controller._input_buffer c = l0 ++ suffix ->
  for_each (range3 (len l0 - 1) (-1) (-1)) (fun i =>
    let* c := get in
    let* e := getitem (Controller._input_buffer c) i in
    match e with
    | Some ch =>
        if String.eqb ch (Controller.exit_signal c) then ret (Some true) else ret None
    | None => ret None
    end) c
  = (Ok (if existsb (is_exit (Controller.exit_signal c)) l0 then Some true else None), c, []).
Proof.
  induction l0 as [|z l1 IH] using rev_ind; intros suffix c Hb.
  - rewrite range3_down_nil by (unfold len; simpl; lia). reflexivity.
  - rewrite len_app. change (len [z]) with 1. replace (len l1 + 1 - 1) with (len l1) by lia.
    rewrite range3_down_cons by (pose proof (len_nonneg l1); lia).
    cbn [for_each]. msimpl.
    erewrite bind_pure; cycle 1.
    { apply (getitem_in _ _ z); [apply len_nonneg|].
      rewrite Hb, <- app_assoc.
      replace (Z.to_nat (len l1)) with (length l1 + 0)%nat by (unfold len; lia).
      rewrite lookup_app_r by lia.
      replace (length l1 + 0 - length l1)%nat with 0%nat by lia. reflexivity. }
    rewrite existsb_app. cbn [existsb]. rewrite orb_false_r.
    rewrite <- app_assoc in Hb. specialize (IH _ _ Hb).
    destruct z as [ch|]; cbn [is_exit].
    + destruct (String.eqb ch (Controller.exit_signal c)); msimpl.
      * rewrite orb_true_r. reflexivity.
      * rewrite IH, orb_false_r. reflexivity.
    + msimpl. rewrite IH, orb_false_r. reflexivity.
Qed.

Lemma received_exit_signal_eq (c : Controller.t) :
  Controller._received_exit_signal c
  = (Ok (existsb (is_exit (Controller.exit_signal c)) (Controller._input_buffer c)), c, []).
Proof.
  unfold Controller._received_exit_signal. msimpl.
  erewrite bind_pure; cycle 1.
  { apply (exit_scan _ []). rewrite app_nil_r. reflexivity. }
  destruct (existsb _ _); reflexivity.
Qed.

Lemma existsb_is_exit (signal : string) (l : list (option string)) :
  existsb (is_exit signal) l = true <-> Some signal ∈ l.
Proof.
  rewrite existsb_exists. split.
  - intros (e & Hin & He). destruct e as [ch|]; [|discriminate].
    apply String.eqb_eq in He. subst. by apply list_elem_of_In.
  - intros Hin. exists (Some signal). split; [by apply list_elem_of_In|].
    apply String.eqb_refl.
Qed.

Lemma buffer_input_eq (c : Controller.t) (ch : option string) :
  (Controller._MAX_INPUT_BUFFER c < len (Controller._input_buffer c) ->
   Controller._input_buffer c <> []) ->
  Controller._buffer_input (Key ch) c
  = (Ok ch,
     Controller.with_errors
       (Controller.dict_set "input buffer" [InputBuffer] (Controller.errors c))
       (Controller.with_input_buffer
          (push ch (evict (Controller._MAX_INPUT_BUFFER c) (Controller._input_buffer c))) c),
     []).
Proof.
  intros Hne. unfold Controller._buffer_input, Controller.getch, evict. msimpl.
  destruct (Z.ltb_spec (Controller._MAX_INPUT_BUFFER c) (len (Controller._input_buffer c)))
    as [Hlt|Hge].
  - destruct (Controller._input_buffer c) as [|e l] eqn:Hb; [by destruct Hne|].
    unfold pop0. msimpl. cbn [fst snd tail].
    destruct ch as [k|]; msimpl; unfold Controller._add_error; msimpl; reflexivity.
  - msimpl. destruct ch as [k|]; msimpl; unfold Controller._add_error; msimpl.
    + reflexivity.
    + rewrite <- (with_input_buffer_id c) at 1. reflexivity.
Qed.

(** ** Properties kept by every outcome *)

Section Preserves.
Context {S : Type} (P : S -> Prop).

Lemma preserves_ret {A} (a : A) : preserves P (ret a).
Proof. intros s Hs. exact Hs. Qed.

Lemma preserves_raise {A} (e : exn) : preserves P (raise (A:=A) e).
Proof. intros s Hs. exact Hs. Qed.

Lemma preserves_get : preserves P get.
Proof. intros s Hs. exact Hs. Qed.

Lemma preserves_print (args : list pyval) : preserves P (print args).
Proof. intros s Hs. exact Hs. Qed.

Lemma preserves_put (s' : S) : P s' -> preserves P (put s').
Proof. intros Hs' s _. exact Hs'. Qed.

Lemma preserves_getitem {A} (l : list A) (i : Z) : preserves P (getitem l i).
Proof.
  intros s Hs. unfold getitem.
  destruct (norm_index l i); [|exact Hs]. destruct (l !! n); exact Hs.
Qed.

Lemma preserves_setitem {A} (l : list A) (i : Z) (x : A) : preserves P (setitem l i x).
Proof. intros s Hs. unfold setitem. destruct (norm_index l i); exact Hs. Qed.

Lemma preserves_pop0 {A} (l : list A) : preserves P (pop0 l).
Proof. intros s Hs. destruct l; exact Hs. Qed.

Lemma preserves_bind {A B} (m : M S A) (f : A -> M S B) :
  preserves P m -> (forall a, preserves P (f a)) -> preserves P (bind m f).
Proof.
  intros Hm Hf s Hs. rewrite bind_state. specialize (Hm s Hs).
  destruct (m s) as [[[a|e] s1] o1]; cbn [fst snd] in *; [|exact Hm].
  apply Hf, Hm.
Qed.

Lemma preserves_bind_get {B} (f : S -> M S B) :
  (forall c, P c -> preserves P (f c)) -> preserves P (bind get f).
Proof. intros Hf s Hs. rewrite bind_get. apply Hf; exact Hs. Qed.

Lemma preserves_for {A} (l : list A) (body : A -> M S unit) :
  (forall x, preserves P (body x)) -> preserves P (for_ l body).
Proof.
  intros Hbody. induction l as [|x l IH]; [apply preserves_ret|].
  apply preserves_bind; [apply Hbody|intros _; exact IH].
Qed.

Lemma preserves_for_each {A R} (l : list A) (body : A -> M S (option R)) :
  (forall x, preserves P (body x)) -> preserves P (for_each l body).
Proof.
  intros Hbody. induction l as [|x l IH]; [apply preserves_ret|].
  apply preserves_bind; [apply Hbody|].
  intros [v|]; [apply preserves_ret|exact IH].
Qed.

(** A method of a sub-object keeps [P] when it keeps, on the sub-object,
    some [Q] that holds now and is enough for [P]. *)
Lemma preserves_zoom {T A} (proj : S -> T) (upd : T -> S -> S) (m : M T A)
    (Q : S -> T -> Prop) :
  (forall s, P s -> Q s (proj s)) ->
  (forall s, preserves (Q s) m) ->
  (forall s t, Q s t -> P (upd t s)) ->
  preserves P (zoom proj upd m).
Proof.
  intros Hin Hm Hout s Hs. unfold zoom.
  specialize (Hm s (proj s) (Hin s Hs)).
  destruct (m (proj s)) as [[r t] o]. cbn [fst snd] in *. apply Hout, Hm.
Qed.

(** The sub-object does not matter to [P]. *)
Lemma preserves_zoom_frame {T A} (proj : S -> T) (upd : T -> S -> S) (m : M T A) :
  (forall s t, P s -> P (upd t s)) -> preserves P (zoom proj upd m).
Proof.
  intros Hupd s Hs. unfold zoom.
  destruct (m (proj s)) as [[r t] o]. cbn [fst snd]. apply Hupd, Hs.
Qed.

End Preserves.

(** Decompose a [preserves] goal along the structure of the method. *)
Ltac pres_step :=
  lazymatch goal with
  | |- preserves _ (bind get _) => apply preserves_bind_get; intros ? ?
  | |- preserves _ (bind _ _) => apply preserves_bind; [|intros ?]
  | |- preserves _ (ret _) => apply preserves_ret
  | |- preserves _ (raise _) => apply preserves_raise
  | |- preserves _ get => apply preserves_get
  | |- preserves _ (print _) => apply preserves_print
  | |- preserves _ (getitem _ _) => apply preserves_getitem
  | |- preserves _ (setitem _ _ _) => apply preserves_setitem
  | |- preserves _ (pop0 _) => apply preserves_pop0
  | |- preserves _ (for_ _ _) => apply preserves_for; intros ?
  | |- preserves _ (for_each _ _) => apply preserves_for_each; intros ?
  | |- preserves _ (put _) => apply preserves_put
  | |- preserves _ (let _ := _ in _) => cbv zeta
  | |- preserves _ (match ?x with _ => _ end) => destruct x
  end.

Ltac pres := repeat pres_step.

(** ** Invariants of the loop *)

Section LoopInvariant.
(** A property of the controller that each ingredient of an iteration
    keeps is kept by the iteration, by the loop and by [start]. *)
Variable P : Controller.t -> Prop.
Hypothesis P_clear : preserves P (Controller.on_screen Screen.clear).
Hypothesis P_show : preserves P (Controller.on_screen Screen.show).
Hypothesis P_draw_actor : forall a, preserves P (Controller.on_screen (Snake.draw a)).
Hypothesis P_draw_food : forall f, preserves P (Controller.on_screen (Food.draw f)).
Hypothesis P_actor : forall c a, P c -> P (Controller.with_actor a c).
Hypothesis P_errors : forall c e, P c -> P (Controller.with_errors e c).
Hypothesis P_get_input : preserves P Controller.get_input.
Hypothesis P_buffer_input : forall p, preserves P (Controller._buffer_input p).

Lemma inv_set_direction (d : pos_t) : preserves P (Controller.set_direction d).
Proof. unfold Controller.set_direction. pres. by apply P_actor. Qed.

Lemma inv_world_draw : preserves P Controller.world_draw.
Proof. unfold Controller.world_draw. pres; [apply P_draw_actor|apply P_draw_food]. Qed.

Lemma inv_on_actor {A} (m : M Snake.t A) : preserves P (Controller.on_actor m).
Proof. apply preserves_zoom_frame. intros s t. apply P_actor. Qed.

Lemma inv_update : preserves P Controller.update.
Proof.
  unfold Controller.update.
  apply preserves_bind; [apply P_get_input|intros ch].
  apply preserves_bind.
  { destruct ch as [ch|]; [|apply preserves_ret].
    unfold Controller.when.
    repeat (apply preserves_bind; [|intros ?]);
      (destruct (String.eqb ch _); [apply inv_set_direction|apply preserves_ret]). }
  intros _. apply preserves_bind_get. intros c Hc.
  apply preserves_bind; [apply inv_on_actor|intros _].
  apply preserves_bind; [apply P_clear|intros _].
  apply inv_world_draw.
Qed.

Lemma inv_add_error (r : list_ref) (name : string) :
  preserves P (Controller._add_error r name).
Proof. unfold Controller._add_error. pres. by apply P_errors. Qed.

Lemma inv_show_error : preserves P Controller._show_error.
Proof. unfold Controller._show_error. pres. Qed.

Lemma inv_received_exit_signal : preserves P Controller._received_exit_signal.
Proof. intros c Hc. rewrite received_exit_signal_eq. exact Hc. Qed.

Lemma inv_iteration (p : poll) : preserves P (Controller.iteration p).
Proof.
  unfold Controller.iteration.
  apply preserves_bind; [apply inv_update|intros _].
  apply preserves_bind; [apply P_show|intros _].
  apply preserves_bind; [apply inv_add_error|intros _].
  apply preserves_bind; [apply inv_show_error|intros _].
  apply preserves_bind; [apply P_buffer_input|intros _].
  apply inv_received_exit_signal.
Qed.

Lemma inv_loop (polls : list poll) : preserves P (Controller.loop polls).
Proof.
  induction polls as [|p polls IH]; [apply preserves_ret|].
  cbn [Controller.loop].
  apply preserves_bind; [apply inv_iteration|].
  intros [|]; [apply preserves_ret|exact IH].
Qed.

Lemma inv_start (polls : list poll) : preserves P (Controller.start polls).
Proof.
  unfold Controller.start.
  apply preserves_bind; [apply P_show|intros _; apply inv_loop].
Qed.

End LoopInvariant.

(** ** Invariants of the input buffer *)

Section BufferInvariant.
(** A property of the input buffer and its bound that survives popping
    the oldest entry and the evict-then-append step of a poll. *)
Variable Q : list (option string) -> Z -> Prop.
Hypothesis Q_pop : forall e l m, Q (e :: l) m -> Q l m.
Hypothesis Q_push : forall l m k,
  Q l m -> (m < len l -> l <> []) -> Q (evict m l ++ [Some k]) m.

Local Abbreviation P := (on_buffer Q).

Lemma buffer_inv_on_screen {A} (m : M Screen.t A) :
  preserves P (Controller.on_screen m).
Proof. apply preserves_zoom_frame. intros s t Hs. exact Hs. Qed.

Lemma buffer_inv_get_input : preserves P Controller.get_input.
Proof.
  intros c Hc. rewrite get_input_eq. cbn [fst snd]. unfold on_buffer in *.
  cbn [Controller._input_buffer Controller._MAX_INPUT_BUFFER Controller.with_input_buffer].
  induction (Controller._input_buffer c) as [|[ch|] l IH]; cbn [first_key snd].
  - exact Hc.
  - eapply Q_pop, Hc.
  - eapply IH, Q_pop, Hc.
Qed.

Lemma buffer_inv_buffer_input (p : poll) : preserves P (Controller._buffer_input p).
Proof.
  intros c Hc. destruct p as [ch|]; [|exact Hc].
  unfold Controller._buffer_input, Controller.getch. msimpl.
  pose proof (fun k => Q_push _ _ k Hc) as Hpush. unfold evict in Hpush. unfold on_buffer in *.
  destruct (Z.ltb_spec (Controller._MAX_INPUT_BUFFER c) (len (Controller._input_buffer c))).
  - destruct (Controller._input_buffer c) as [|e l] eqn:Hb.
    + unfold pop0. msimpl. cbn [fst snd]. rewrite Hb. exact Hc.
    + unfold pop0. msimpl. cbn [fst snd tail] in *.
      destruct ch as [k|]; msimpl; unfold Controller._add_error; msimpl; cbn.
      * apply Hpush. discriminate.
      * eapply Q_pop, Hc.
  - msimpl. destruct ch as [k|]; msimpl; unfold Controller._add_error; msimpl; cbn.
    + apply Hpush. lia.
    + exact Hc.
Qed.

Lemma buffer_inv_iteration (p : poll) : preserves P (Controller.iteration p).
Proof.
  apply inv_iteration; try (intros; apply buffer_inv_on_screen);
    first [ by intros | apply buffer_inv_get_input | apply buffer_inv_buffer_input ].
Qed.

Lemma buffer_inv_start (polls : list poll) : preserves P (Controller.start polls).
Proof.
  apply inv_start; try (intros; apply buffer_inv_on_screen);
    first [ by intros | apply buffer_inv_get_input | apply buffer_inv_buffer_input ].
Qed.

End BufferInvariant.

Lemma bounded_pop (e : option string) (l : list (option string)) (m : Z) :
  len (e :: l) <= m + 1 -> len l <= m + 1.
Proof. rewrite len_cons. lia. Qed.

Lemma bounded_push (l : list (option string)) (m : Z) (k : string) :
  len l <= m + 1 -> (m < len l -> l <> []) -> len (evict m l ++ [Some k]) <= m + 1.
Proof.
  intros Hl Hne. rewrite len_app. change (len [Some k]) with 1. unfold evict.
  destruct (Z.ltb_spec m (len l)); [|lia].
  destruct l as [|e l]; [by destruct Hne|].
  rewrite len_cons in *. simpl. lia.
Qed.

Lemma none_free_pop (e : option string) (l : list (option string)) (m : Z) :
  None ∉ e :: l -> None ∉ l.
Proof. intros H. by apply not_elem_of_cons in H as [_ H]. Qed.

Lemma none_free_push (l : list (option string)) (m : Z) (k : string) :
  None ∉ l -> (m < len l -> l <> []) -> None ∉ evict m l ++ [Some k].
Proof.
  intros Hl _. apply not_elem_of_app. split.
  - unfold evict. destruct (m <? len l); [|exact Hl].
    destruct l as [|e l]; [exact Hl|]. by apply not_elem_of_cons in Hl as [_ Hl].
  - apply not_elem_of_cons. split; [discriminate|apply not_elem_of_nil].
Qed.

(** C5.  The input buffer of a controller never holds more than
    [_MAX_INPUT_BUFFER + 1] entries: the bound holds when the loop is
    started on a fresh controller and stands after any number of polls,
    and every iteration keeps it.  Pushing a polled character into a
    buffer that holds exactly N = [_MAX_INPUT_BUFFER + 1] entries drops the
    oldest entry, puts the character at the back and leaves N entries. *)
Theorem input_ring_bounded_eviction :
  (forall (w h : Z) (polls : list poll),
     bounded (Controller.start polls (Controller.init w h)).1.2) /\
  (forall (c : Controller.t) (p : poll),
     bounded c -> bounded (Controller.iteration p c).1.2) /\
  (forall (c : Controller.t) (k : string),
     0 <= Controller._MAX_INPUT_BUFFER c ->
     len (Controller._input_buffer c) = Controller._MAX_INPUT_BUFFER c + 1 ->
     exists (oldest : option string) (rest : list (option string)),
       Controller._input_buffer c = oldest :: rest /\
       (Controller._buffer_input (Key (Some k)) c).1.1 = Ok (Some k) /\
       Controller._input_buffer (Controller._buffer_input (Key (Some k)) c).1.2
         = rest ++ [Some k] /\
       len (rest ++ [Some k]) = Controller._MAX_INPUT_BUFFER c + 1).
Proof.
  split; [|split].
  - intros w h polls.
    apply (buffer_inv_start (fun l m => len l <= m + 1) bounded_pop bounded_push).
    unfold on_buffer, len. simpl. lia.
  - intros c p.
    apply (buffer_inv_iteration (fun l m => len l <= m + 1) bounded_pop bounded_push).
  - intros c k Hmax Hlen.
    destruct (Controller._input_buffer c) as [|oldest rest] eqn:Hb.
    { unfold len in Hlen. simpl in Hlen. lia. }
    exists oldest, rest. split; [reflexivity|].
    rewrite buffer_input_eq by (rewrite Hb; discriminate).
    rewrite Hb. unfold evict.
    destruct (Z.ltb_spec (Controller._MAX_INPUT_BUFFER c) (len (oldest :: rest))); [|lia].
    cbn. split; [reflexivity|]. split; [reflexivity|].
    rewrite len_app. rewrite len_cons in Hlen. change (len [Some k]) with 1. lia.
Qed.

Lemma input_ring_bounded_eviction_witness :
  let c := Controller.with_input_buffer (replicate 11 (Some "a")) (Controller.init 20 20) in
  bounded (Controller.iteration (Key (Some "d")) c).1.2 /\
  exists (oldest : option string) (rest : list (option string)),
    Controller._input_buffer c = oldest :: rest /\
    (Controller._buffer_input (Key (Some "d")) c).1.1 = Ok (Some "d") /\
    Controller._input_buffer (Controller._buffer_input (Key (Some "d")) c).1.2
      = rest ++ [Some "d"] /\
    len (rest ++ [Some "d"]) = Controller._MAX_INPUT_BUFFER c + 1.
Proof.
  intros c.
  pose proof input_ring_bounded_eviction as (_ & Hiter & Hpush).
  split.
  - apply Hiter. unfold bounded, len. simpl. lia.
  - apply Hpush; [simpl; lia | reflexivity].
Defined.

(** C9.  A poll that yields no key while the buffer holds more than
    [_MAX_INPUT_BUFFER] entries still evicts the oldest entry: the buffer
    loses exactly its first element and nothing is appended. *)
Theorem poll_without_key_evicts (c : Controller.t) :
  0 <= Controller._MAX_INPUT_BUFFER c ->
  Controller._MAX_INPUT_BUFFER c < len (Controller._input_buffer c) ->
  exists (oldest : option string) (rest : list (option string)),
    Controller._input_buffer c = oldest :: rest /\
    (Controller._buffer_input (Key None) c).1.1 = Ok None /\
    Controller._input_buffer (Controller._buffer_input (Key None) c).1.2 = rest /\
    len rest = len (Controller._input_buffer c) - 1.
Proof.
  intros Hmax Hlen.
  destruct (Controller._input_buffer c) as [|oldest rest] eqn:Hb.
  { unfold len in Hlen. simpl in Hlen. lia. }
  exists oldest, rest. split; [reflexivity|].
  rewrite buffer_input_eq by (rewrite Hb; discriminate).
  rewrite Hb. unfold evict.
  destruct (Z.ltb_spec (Controller._MAX_INPUT_BUFFER c) (len (oldest :: rest))); [|lia].
  cbn. split; [reflexivity|]. split; [reflexivity|].
  rewrite len_cons. lia.
Qed.

Lemma poll_without_key_evicts_witness :
  let c := Controller.with_input_buffer (replicate 11 (Some "a")) (Controller.init 20 20) in
  exists (oldest : option string) (rest : list (option string)),
    Controller._input_buffer c = oldest :: rest /\
    (Controller._buffer_input (Key None) c).1.1 = Ok None /\
    Controller._input_buffer (Controller._buffer_input (Key None) c).1.2 = rest /\
    len rest = len (Controller._input_buffer c) - 1.
Proof.
  intros c. apply (poll_without_key_evicts c); [simpl; lia | unfold len; simpl; lia].
Defined.

(** C10.  The input buffer never holds [None]: it does not when the loop
    is started on a fresh controller, after any number of polls, and every
    iteration keeps it so, a poll appending its result only when it is a
    character.  On such a buffer [get_input] removes exactly the oldest
    entry and returns it when there is one, and on the empty buffer it
    returns [None] and changes nothing. *)
Theorem buffer_none_free_get_input :
  (forall (w h : Z) (polls : list poll),
     none_free (Controller.start polls (Controller.init w h)).1.2) /\
  (forall (c : Controller.t) (p : poll),
     none_free c -> none_free (Controller.iteration p c).1.2) /\
  (forall (c : Controller.t) (oldest : option string) (rest : list (option string)),
     none_free c ->
     Controller._input_buffer c = oldest :: rest ->
     exists ch : string,
       oldest = Some ch /\
       Controller.get_input c = (Ok (Some ch), Controller.with_input_buffer rest c, [])) /\
  (forall c : Controller.t,
     Controller._input_buffer c = [] ->
     Controller.get_input c = (Ok None, c, [])).
Proof.
  split; [|split; [|split]].
  - intros w h polls.
    apply (buffer_inv_start (fun l _ => None ∉ l) none_free_pop none_free_push).
    unfold on_buffer. cbn. apply not_elem_of_nil.
  - intros c p.
    apply (buffer_inv_iteration (fun l _ => None ∉ l) none_free_pop none_free_push).
  - intros c oldest rest Hnf Hb. unfold none_free in Hnf. rewrite Hb in Hnf.
    apply not_elem_of_cons in Hnf as [Hne _].
    destruct oldest as [ch|]; [|done].
    exists ch. split; [reflexivity|].
    rewrite get_input_eq, Hb. reflexivity.
  - intros c Hb. rewrite get_input_eq, Hb. cbn [first_key fst snd].
    rewrite <- Hb, with_input_buffer_id. reflexivity.
Qed.

Lemma buffer_none_free_get_input_witness :
  let c := Controller.with_input_buffer [Some "w"; Some "q"; Some "a"] (Controller.init 20 20) in
  none_free (Controller.iteration (Key None) c).1.2 /\
  (exists ch : string,
     Some "w" = Some ch /\
     Controller.get_input c
       = (Ok (Some ch), Controller.with_input_buffer [Some "q"; Some "a"] c, [])) /\
  Controller.get_input (Controller.init 20 20) = (Ok None, Controller.init 20 20, []).
Proof.
  intros c.
  pose proof buffer_none_free_get_input as (_ & Hiter & Hget & Hempty).
  assert (Hc : none_free c).
  { unfold none_free, c. cbn. intros Hin. repeat (apply elem_of_cons in Hin as [Hin|Hin]; [discriminate|]). by apply elem_of_nil in Hin. }
  split; [apply Hiter, Hc|]. split.
  - apply Hget; [exact Hc | reflexivity].
  - apply Hempty. reflexivity.
Defined.

(** ** Methods that return *)

Section Returns.
Context {S : Type}.

Lemma returns_bind {A B} (P : S -> Prop) (m : M S A) (Q : A -> S -> Prop)
    (f : A -> M S B) (R : B -> S -> Prop) :
  returns P m Q -> (forall a, returns (Q a) (f a) R) -> returns P (bind m f) R.
Proof.
  intros Hm Hf s Hs.
  destruct (Hm s Hs) as (a & s1 & o1 & Em & Hq).
  destruct (Hf a s1 Hq) as (b & s2 & o2 & Ef & Hr).
  exists b, s2, (o1 ++ o2). split; [|exact Hr].
  unfold bind. rewrite Em, Ef. reflexivity.
Qed.

Lemma returns_for {A} (P : S -> Prop) (l : list A) (body : A -> M S unit) :
  (forall x, x ∈ l -> returns P (body x) (fun _ => P)) ->
  returns P (for_ l body) (fun _ => P).
Proof.
  induction l as [|x l IH]; intros Hbody.
  - intros s Hs. exists tt, s, []. done.
  - cbn [for_]. eapply returns_bind.
    + apply Hbody. apply list_elem_of_here.
    + intros []. apply IH. intros y Hy. apply Hbody. by apply list_elem_of_further.
Qed.

Lemma returns_zoom {T A} (P : S -> Prop) (proj : S -> T) (upd : T -> S -> S)
    (m : M T A) (PT : T -> Prop) (QT : A -> T -> Prop) (Q : A -> S -> Prop) :
  returns PT m QT ->
  (forall s, P s -> PT (proj s)) ->
  (forall s a t, P s -> QT a t -> Q a (upd t s)) ->
  returns P (zoom proj upd m) Q.
Proof.
  intros Hm Hin Hout s Hs.
  destruct (Hm (proj s) (Hin s Hs)) as (a & t & o & E & Hq).
  exists a, (upd t s), o. unfold zoom. rewrite E. split; [reflexivity|].
  by apply Hout.
Qed.

End Returns.

(** ** Screen methods on a well-formed grid *)

Lemma grid_insert (R C : nat) (px : list (list pixel_t)) (k i : nat) (row : list pixel_t)
    (p : pixel_t) :
  grid R C px -> px !! k = Some row -> grid R C (<[k := <[i := p]> row]> px).
Proof.
  intros [HR HC] Hrow. split.
  - by rewrite length_insert.
  - apply Forall_insert; [exact HC|].
    rewrite length_insert. by eapply (Forall_lookup_1 _ _ _ _ HC).
Qed.

Lemma set_pixel_returns (R C : nat) (x y : Z) (p : pixel_t) :
  safe_pos R C (x, y) ->
  returns (screen_ok R C) (Screen.set_pixel x y p) (fun _ => screen_ok R C).
Proof.
  intros Hpos s (HR & Hg & Hw & Hh).
  unfold safe_pos in Hpos. cbn [fst snd] in Hpos.
  destruct (decide (0 <= y < Z.of_nat R /\ 0 <= x < Z.of_nat C)) as [[Hy Hx]|Hout].
  - destruct (set_pixel_inside s R C x y p Hg Hx Hy) as (row & Hrow & E).
    eexists tt, _, []. split; [exact E|].
    split; [exact HR|]. split; [|done].
    cbn [Screen.pixels Screen.with_pixels]. by apply grid_insert.
  - eexists tt, _, []. split.
    + apply (set_pixel_outside s R C); [exact Hg|exact HR|lia].
    + done.
Qed.

Lemma clear_returns (R C : nat) :
  returns (screen_ok R C) Screen.clear (fun _ => screen_ok R C).
Proof.
  intros s (HR & Hg & Hw & Hh). unfold Screen.clear. msimpl.
  eexists tt, _, []. split; [reflexivity|].
  split; [exact HR|]. split; [|done].
  cbn [Screen.pixels Screen.with_pixels]. rewrite <- Hw, <- Hh. apply blank_grid.
Qed.

Lemma show_returns (R C : nat) :
  returns (screen_ok R C) Screen.show (fun _ => screen_ok R C).
Proof.
  intros s Hs. pose proof Hs as (HR & Hg & Hw & Hh).
  destruct (grid_row R C _ 0%nat Hg HR) as (row0 & Hrow0 & _).
  unfold Screen.show.
  erewrite bind_out; [|reflexivity]. msimpl.
  erewrite bind_pure; [|apply (getitem_in _ 0 row0); [lia|exact Hrow0]].
  eexists tt, s, _. split; [reflexivity|exact Hs].
Qed.

Lemma snake_draw_returns (R C : nat) (a : Snake.t) :
  Forall (safe_pos R C) (Snake.body a) ->
  returns (screen_ok R C) (Snake.draw a) (fun _ => screen_ok R C).
Proof.
  intros Hbody. unfold Snake.draw. apply returns_for.
  intros [x y] Hin. apply set_pixel_returns.
  rewrite Forall_forall in Hbody. by apply Hbody.
Qed.

Lemma food_draw_returns (R C : nat) (f : Food.t) :
  safe_pos R C (Food.pos f) ->
  returns (screen_ok R C) (Food.draw f) (fun _ => screen_ok R C).
Proof.
  intros Hpos. unfold Food.draw. apply set_pixel_returns.
  destruct (Food.pos f). exact Hpos.
Qed.

(** ** Controller: one update *)

Lemma with_actor_id (c : Controller.t) : Controller.with_actor (Controller.actor c) c = c.
Proof. destruct c. reflexivity. Qed.

Lemma with_direction_id (s : Snake.t) : Snake.with_direction (Snake.direction s) s = s.
Proof. destruct s. reflexivity. Qed.

Lemma turned_none (c : Controller.t) : turned None c = c.
Proof. unfold turned, steer. by rewrite with_direction_id, with_actor_id. Qed.

(** The four tests of [update] on a consumed character act as the table. *)
Lemma steer_eq (ch : string) (c : Controller.t) :
  (Controller.when (String.eqb ch "w") (Controller.set_direction (0, -1)) ;;
   Controller.when (String.eqb ch "a") (Controller.set_direction (-1, 0)) ;;
   Controller.when (String.eqb ch "d") (Controller.set_direction (1, 0)) ;;
   Controller.when (String.eqb ch "s") (Controller.set_direction (0, 1))) c
  = (Ok tt, turned (Some ch) c, []).
Proof.
  unfold turned, steer, key_direction.
  destruct (String.eqb_spec ch "w") as [->|Hw]; [reflexivity|].
  destruct (String.eqb_spec ch "a") as [->|Ha]; [reflexivity|].
  destruct (String.eqb_spec ch "s") as [->|Hs]; [reflexivity|].
  destruct (String.eqb_spec ch "d") as [->|Hd]; [reflexivity|].
  cbn [default]. rewrite with_direction_id, with_actor_id.
  unfold Controller.when. msimpl. reflexivity.
Qed.

Lemma update_unfold (c : Controller.t) :
  Controller.update c =
    (let c2 :=
       turned (first_key (Controller._input_buffer c)).1
         (Controller.with_input_buffer (first_key (Controller._input_buffer c)).2 c) in
     (Controller.on_actor (Snake.move (Controller.world c2)) ;;
      Controller.on_screen Screen.clear ;;
      Controller.world_draw) c2).
Proof.
  unfold Controller.update.
  erewrite bind_pure; [|apply get_input_eq].
  destruct (first_key (Controller._input_buffer c)).1 as [ch|].
  - erewrite bind_pure; [|apply steer_eq]. rewrite bind_get. reflexivity.
  - rewrite bind_ret, bind_get, turned_none. reflexivity.
Qed.

Lemma move_output (heap : World.t) (s : Snake.t) : (Snake.move heap s).2 = [].
Proof.
  rewrite move_eq. unfold translate_outcome.
  destruct (Snake.body s) as [|[x y] rest]; [reflexivity|].
  destruct (Snake.world s) as [[]|]; [|reflexivity].
  destruct (World.width heap =? 0); [reflexivity|].
  destruct (World.height heap =? 0); reflexivity.
Qed.

(** ** Properties the screen does not matter to *)

Section ScreenFrame.
Variable P : Controller.t -> Prop.
Hypothesis P_screen : forall c t, P c -> P (Controller.with_screen t c).

Lemma frame_on_screen {A} (m : M Screen.t A) : preserves P (Controller.on_screen m).
Proof. apply preserves_zoom_frame. intros s t. apply P_screen. Qed.

Lemma frame_world_draw : preserves P Controller.world_draw.
Proof. unfold Controller.world_draw. pres; apply frame_on_screen. Qed.

Lemma frame_clear_draw :
  preserves P (Controller.on_screen Screen.clear ;; Controller.world_draw).
Proof.
  apply preserves_bind; [apply frame_on_screen|intros _; apply frame_world_draw].
Qed.
End ScreenFrame.

(** ** A safe controller never raises *)

Lemma Forall_removelast {A} (P : A -> Prop) (l : list A) :
  Forall P l -> Forall P (removelast l).
Proof.
  intros H. destruct l as [|a l]; [exact H|].
  destruct (exists_last (l:=a :: l)) as (l' & z & E); [done|].
  rewrite E in *. rewrite removelast_last. by apply Forall_app in H as [H _].
Qed.

Lemma safe_with_screen (R C : nat) (c : Controller.t) (t : Screen.t) :
  safe R C c -> screen_ok R C t -> safe R C (Controller.with_screen t c).
Proof. intros (_ & H) Ht. split; [exact Ht|exact H]. Qed.

Lemma returns_bind_get {S B} (P : S -> Prop) (f : S -> M S B) (Q : B -> S -> Prop) :
  (forall c, P c -> exists a s' o, f c c = (Ok a, s', o) /\ Q a s') ->
  returns P (bind get f) Q.
Proof. intros Hf s Hs. rewrite bind_get. by apply Hf. Qed.

Lemma on_screen_returns (R C : nat) {A} (m : M Screen.t A) :
  returns (screen_ok R C) m (fun _ => screen_ok R C) ->
  returns (safe R C) (Controller.on_screen m) (fun _ => safe R C).
Proof.
  intros Hm. unfold Controller.on_screen.
  eapply returns_zoom; [exact Hm| |].
  - intros s Hs. apply Hs.
  - intros s a t Hs Ht. by apply safe_with_screen.
Qed.

Lemma world_draw_returns (R C : nat) :
  returns (safe R C) Controller.world_draw (fun _ => safe R C).
Proof.
  unfold Controller.world_draw. apply returns_bind_get. intros c0 Hc0.
  apply returns_for; [|exact Hc0]. intros obj _.
  apply returns_bind_get. intros c Hc.
  destruct obj.
  - apply on_screen_returns; [|exact Hc]. apply snake_draw_returns, Hc.
  - apply on_screen_returns; [|exact Hc]. apply food_draw_returns, Hc.
Qed.

Lemma move_returns (R C : nat) (c : Controller.t) :
  safe R C c ->
  exists a : Snake.t,
    Snake.move (Controller.world c) (Controller.actor c) = (Ok tt, a, []) /\
    safe R C (Controller.with_actor a c).
Proof.
  intros (Hscr & HW & HH & Hw & Hne & Hbody & Hfood & Hmax).
  rewrite move_eq. unfold translate_outcome.
  destruct (Snake.body (Controller.actor c)) as [|[x y] rest] eqn:Hb; [done|].
  rewrite Hw.
  destruct (Z.eqb_spec (World.width (Controller.world c)) 0); [lia|].
  destruct (Z.eqb_spec (World.height (Controller.world c)) 0); [lia|].
  eexists. split; [reflexivity|].
  split; [exact Hscr|]. split; [exact HW|]. split; [exact HH|].
  split; [exact Hw|]. split; [discriminate|]. split; [|done].
  cbn [Controller.actor Controller.with_actor Snake.body Snake.with_pos Snake.with_body].
  apply Forall_cons. split; [|by apply Forall_removelast].
  unfold safe_pos. cbn [fst snd]. right. right. right. right.
  set (dx := (Snake.direction (Controller.actor c)).1 * Snake.speed (Controller.actor c)).
  set (dy := (Snake.direction (Controller.actor c)).2 * Snake.speed (Controller.actor c)).
  pose proof (Z.mod_pos_bound (x + dx) (World.width (Controller.world c))).
  pose proof (Z.mod_pos_bound (y + dy) (World.height (Controller.world c))).
  lia.
Qed.

Lemma safe_turned (R C : nat) (ch : option string) (rest : list (option string))
    (c : Controller.t) :
  safe R C c -> safe R C (turned ch (Controller.with_input_buffer rest c)).
Proof. intros H. exact H. Qed.

Lemma update_returns (R C : nat) :
  returns (safe R C) Controller.update (fun _ => safe R C).
Proof.
  intros c Hc. rewrite update_unfold. cbv zeta.
  set (c2 := turned _ _).
  assert (Hc2 : safe R C c2) by (apply safe_turned, Hc).
  destruct (move_returns R C c2 Hc2) as (a & Emove & Ha).
  erewrite bind_pure; cycle 1.
  { unfold Controller.on_actor, zoom. rewrite Emove. reflexivity. }
  revert Ha. generalize (Controller.with_actor a c2). clear. intros c Hc.
  revert c Hc. change (returns (safe R C)
    (Controller.on_screen Screen.clear ;; Controller.world_draw) (fun _ => safe R C)).
  eapply returns_bind.
  - apply on_screen_returns, clear_returns.
  - intros []. apply world_draw_returns.
Qed.

(** ** Controller: one iteration *)

Lemma for_prints {S A} (l : list A) (body : A -> M S unit) (line : A -> out) (s : S) :
  (forall x s, body x s = (Ok tt, s, [line x])) ->
  for_ l body s = (Ok tt, s, line <$> l).
Proof.
  intros Hbody. induction l as [|x l IH]; [reflexivity|].
  cbn [for_]. erewrite bind_out; [|apply Hbody]. rewrite IH. reflexivity.
Qed.

Lemma show_error_eq (c : Controller.t) :
  Controller._show_error c
  = (Ok tt, c, Printed [] :: (diagnostic_line c <$> Controller.errors c) ++ [Printed []]).
Proof.
  unfold Controller._show_error.
  erewrite bind_out; [|reflexivity]. rewrite bind_get.
  erewrite bind_out; cycle 1.
  { apply (for_prints _ _ (diagnostic_line c)). intros [name error] s. reflexivity. }
  reflexivity.
Qed.

Lemma add_error_eq (r : list_ref) (name : string) (c : Controller.t) :
  Controller._add_error r name c
  = (Ok tt, Controller.with_errors (Controller.dict_set name [r] (Controller.errors c)) c, []).
Proof. unfold Controller._add_error. msimpl. reflexivity. Qed.

Lemma iteration_returns (R C : nat) (ch : option string) :
  returns (safe R C) (Controller.iteration (Key ch)) (fun _ => safe R C).
Proof.
  unfold Controller.iteration.
  eapply returns_bind; [apply update_returns|intros []].
  eapply returns_bind; [apply on_screen_returns, show_returns|intros []].
  eapply returns_bind with (Q := fun _ => safe R C).
  { intros c Hc. unfold Controller._get_errors. rewrite add_error_eq.
    eexists tt, _, []. split; [reflexivity|exact Hc]. }
  intros [].
  eapply returns_bind with (Q := fun _ => safe R C).
  { intros c Hc. rewrite show_error_eq. eexists tt, c, _. split; [reflexivity|exact Hc]. }
  intros [].
  eapply returns_bind with (Q := fun _ => safe R C).
  { intros c Hc. rewrite buffer_input_eq.
    - eexists ch, _, []. split; [reflexivity|exact Hc].
    - intros Hlt Hnil. rewrite Hnil in Hlt.
      destruct Hc as (_ & _ & _ & _ & _ & _ & _ & Hmax).
      unfold len in Hlt. simpl in Hlt. lia. }
  intros _ c Hc. rewrite received_exit_signal_eq.
  eexists _, c, []. split; [reflexivity|exact Hc].
Qed.

Lemma safe_init : safe 20 20 (Controller.init 20 20).
Proof.
  split.
  { split; [lia|]. split; [|done]. apply (init_grid 20 20). }
  split; [cbn; lia|]. split; [cbn; lia|]. split; [reflexivity|].
  split; [discriminate|].
  split; [|split; [|cbn; lia]].
  - cbn. repeat (apply Forall_cons; split; [unfold safe_pos; cbn; lia|]). apply Forall_nil_2.
  - unfold safe_pos. cbn. lia.
Qed.

(** C6.  Whenever an iteration of the loop completes, the loop stops in
    that very iteration exactly when the exit signal occurs somewhere in
    the input buffer the exit check sees (the buffer the iteration leaves,
    the check changing nothing), whatever its position; otherwise the loop
    goes on with the next poll.  On a safe controller, and the default
    20x20 one is safe, every iteration whose poll is not the interrupt
    completes and leaves a safe controller. *)
Theorem exit_scan_terminates :
  (forall (c : Controller.t) (p : poll) (polls : list poll)
          (stop : bool) (c' : Controller.t) (o : list out),
     Controller.iteration p c = (Ok stop, c', o) ->
     (stop = true <-> Some (Controller.exit_signal c') ∈ Controller._input_buffer c') /\
     Controller.loop (p :: polls) c =
       (if stop then (Ok Controller.TERMINATED, c', o)
        else ((Controller.loop polls c').1.1, (Controller.loop polls c').1.2,
              o ++ (Controller.loop polls c').2))) /\
  (forall (R C : nat) (c : Controller.t) (ch : option string),
     safe R C c ->
     exists (stop : bool) (c' : Controller.t) (o : list out),
       Controller.iteration (Key ch) c = (Ok stop, c', o) /\ safe R C c') /\
  safe 20 20 (Controller.init 20 20).
Proof.
  split; [|split; [|exact safe_init]].
  - intros c p polls stop c' o Hit. split.
    + unfold Controller.iteration in Hit.
      apply bind_ok_inv in Hit as (? & c1 & ? & ? & _ & Hit & _).
      apply bind_ok_inv in Hit as (? & c2 & ? & ? & _ & Hit & _).
      apply bind_ok_inv in Hit as (? & c3 & ? & ? & _ & Hit & _).
      apply bind_ok_inv in Hit as (? & c4 & ? & ? & _ & Hit & _).
      apply bind_ok_inv in Hit as (? & c5 & ? & ? & _ & Hit & _).
      rewrite received_exit_signal_eq in Hit. injection Hit as <- <- _.
      apply existsb_is_exit.
    + cbn [Controller.loop]. erewrite bind_out; [|exact Hit].
      destruct stop; [|reflexivity].
      cbn. rewrite app_nil_r. reflexivity.
  - intros R C c ch Hc. apply (iteration_returns R C ch c Hc).
Qed.

Lemma exit_scan_terminates_witness :
  let c := Controller.with_input_buffer [Some "w"; Some "q"; Some "a"] (Controller.init 20 20) in
  let r := Controller.iteration (Key None) c in
  (true = true <-> Some (Controller.exit_signal r.1.2) ∈ Controller._input_buffer r.1.2) /\
  Controller.loop [Key None; Key None] c = (Ok Controller.TERMINATED, r.1.2, r.2) /\
  exists (stop : bool) (c' : Controller.t) (o : list out),
    Controller.iteration (Key None) (Controller.init 20 20) = (Ok stop, c', o) /\ safe 20 20 c'.
Proof.
  intros c r.
  pose proof exit_scan_terminates as (Hstop & Hret & Hsafe).
  destruct (Hstop c (Key None) [Key None] true r.1.2 r.2) as [H1 H2].
  { vm_compute. reflexivity. }
  split; [exact H1|]. split; [exact H2|].
  apply Hret, Hsafe.
Defined.

Lemma first_key_split (l : list (option string)) :
  exists nones : list (option string),
    Forall (fun e => e = None) nones /\
    l = nones ++ match (first_key l).1 with Some k => [Some k] | None => [] end
              ++ (first_key l).2 /\
    ((first_key l).1 = None -> (first_key l).2 = []).
Proof.
  induction l as [|[k|] l (nones & Hn & Hl & Hr)].
  - exists []. done.
  - exists []. done.
  - exists (None :: nones). cbn [first_key]. split; [by apply Forall_cons|].
    split; [|exact Hr]. cbn [app]. by rewrite <- Hl.
Qed.

Lemma key_direction_other (k : string) :
  k <> "w" -> k <> "a" -> k <> "s" -> k <> "d" -> key_direction k = None.
Proof.
  intros Hw Ha Hs Hd. unfold key_direction.
  destruct (String.eqb_spec k "w"); [done|].
  destruct (String.eqb_spec k "a"); [done|].
  destruct (String.eqb_spec k "s"); [done|].
  destruct (String.eqb_spec k "d"); done.
Qed.

(** What follows the update in an iteration leaves the actor alone. *)
Lemma after_update_keeps_actor (p : poll) (a : Snake.t) :
  preserves (fun c => Controller.actor c = a)
    (Controller.on_screen Screen.show ;;
     Controller._get_errors ;;
     Controller._show_error ;;
     Controller._buffer_input p ;;
     Controller._received_exit_signal).
Proof.
  apply preserves_bind; [apply preserves_zoom_frame; by intros|intros _].
  apply preserves_bind; [apply inv_add_error; by intros|intros _].
  apply preserves_bind; [apply inv_show_error|intros _].
  apply preserves_bind; [|intros _; apply inv_received_exit_signal].
  unfold Controller._buffer_input, Controller.getch, Controller._add_error.
  pres; assumption.
Qed.

(** C7.  An update that completes consumes at most one buffered character
    (after any [None] entries in front of it, the rest of the buffer
    staying in place), turns the actor by the table w -> (0,-1),
    a -> (-1,0), s -> (0,1), d -> (1,0), leaves the direction as it was for
    a character outside the table, and advances the actor by exactly one
    [move()], with the direction so chosen, whether or not a character was
    consumed; an iteration that completes holds exactly one such update
    and leaves the actor as the update left it.  On a safe controller the
    update does complete. *)
Theorem update_consumes_one_input :
  (key_direction "w" = Some (0, -1) /\ key_direction "a" = Some (-1, 0) /\
   key_direction "s" = Some (0, 1) /\ key_direction "d" = Some (1, 0) /\
   forall k : string,
     k <> "w" -> k <> "a" -> k <> "s" -> k <> "d" -> key_direction k = None) /\
  (forall (c c' : Controller.t) (o : list out),
     Controller.update c = (Ok tt, c', o) ->
     exists (nones : list (option string)) (consumed : option string),
       Forall (fun e => e = None) nones /\
       Controller._input_buffer c
         = nones ++ match consumed with Some k => [Some k] | None => [] end
                 ++ Controller._input_buffer c' /\
       (consumed = None -> Controller._input_buffer c' = []) /\
       Snake.direction (Controller.actor c')
         = steer consumed (Snake.direction (Controller.actor c)) /\
       Snake.move (Controller.world c)
         (Snake.with_direction (steer consumed (Snake.direction (Controller.actor c)))
            (Controller.actor c))
         = (Ok tt, Controller.actor c', [])) /\
  (forall (c : Controller.t) (p : poll) (stop : bool) (c' : Controller.t) (o : list out),
     Controller.iteration p c = (Ok stop, c', o) ->
     exists (c1 : Controller.t) (o1 : list out),
       Controller.update c = (Ok tt, c1, o1) /\
       Controller.actor c' = Controller.actor c1) /\
  (forall (R C : nat) (c : Controller.t),
     safe R C c ->
     exists (c' : Controller.t) (o : list out),
       Controller.update c = (Ok tt, c', o) /\ safe R C c').
Proof.
  split; [|split; [|split]].
  - repeat (split; [reflexivity|]). exact key_direction_other.
  - intros c c' o Hup. rewrite update_unfold in Hup. cbv zeta in Hup.
    destruct (first_key_split (Controller._input_buffer c)) as (nones & Hn & Hl & Hr).
    set (consumed := (first_key (Controller._input_buffer c)).1) in *.
    set (rest := (first_key (Controller._input_buffer c)).2) in *.
    set (c2 := turned consumed (Controller.with_input_buffer rest c)) in *.
    apply bind_ok_inv in Hup as ([] & c3 & o1 & o2 & Hmove & Hdraw & _).
    unfold Controller.on_actor, zoom in Hmove.
    pose proof (move_output (Controller.world c2) (Controller.actor c2)) as Hout.
    destruct (Snake.move (Controller.world c2) (Controller.actor c2))
      as [[r a] oo] eqn:Emove.
    cbn [snd] in Hout. subst oo. injection Hmove as -> <- <-.
    pose (P := fun c0 : Controller.t =>
      Controller.actor c0 = a /\ Controller._input_buffer c0 = rest).
    assert (HP : P c') .
    { pose proof (frame_clear_draw P) as Hfr.
      assert (Hscr : forall c0 t, P c0 -> P (Controller.with_screen t c0)) by (intros; done).
      specialize (Hfr Hscr (Controller.with_actor a c2)).
      rewrite Hdraw in Hfr. apply Hfr. done. }
    destruct HP as [Ha Hb].
    exists nones, consumed. rewrite Hb. split; [exact Hn|]. split; [exact Hl|].
    split; [exact Hr|]. rewrite Ha. split; [|exact Emove].
    change (Snake.direction (Controller.actor c2)) with
      (steer consumed (Snake.direction (Controller.actor c))) .
    rewrite move_eq in Emove. unfold translate_outcome in Emove.
    destruct (Snake.body (Controller.actor c2)) as [|[x y] tl]; [discriminate|].
    destruct (Snake.world (Controller.actor c2)) as [[]|]; [|discriminate].
    destruct (World.width (Controller.world c2) =? 0); [discriminate|].
    destruct (World.height (Controller.world c2) =? 0); [discriminate|].
    injection Emove as <-. reflexivity.
  - intros c p stop c' o Hit. unfold Controller.iteration in Hit.
    apply bind_ok_inv in Hit as ([] & c1 & o1 & o2 & Hup & Hrest & _).
    exists c1, o1. split; [exact Hup|].
    pose proof (after_update_keeps_actor p (Controller.actor c1) c1 eq_refl) as Hkeep.
    rewrite Hrest in Hkeep. exact Hkeep.
  - intros R C c Hc. destruct (update_returns R C c Hc) as ([] & c' & o & E & Hs).
    by exists c', o.
Qed.

Lemma update_consumes_one_input_witness :
  let c := Controller.with_input_buffer [Some "w"; Some "q"; Some "a"] (Controller.init 20 20) in
  let r := Controller.update c in
  (exists (nones : list (option string)) (consumed : option string),
     Forall (fun e => e = None) nones /\
     Controller._input_buffer c
       = nones ++ match consumed with Some k => [Some k] | None => [] end
               ++ Controller._input_buffer r.1.2 /\
     (consumed = None -> Controller._input_buffer r.1.2 = []) /\
     Snake.direction (Controller.actor r.1.2)
       = steer consumed (Snake.direction (Controller.actor c)) /\
     Snake.move (Controller.world c)
       (Snake.with_direction (steer consumed (Snake.direction (Controller.actor c)))
          (Controller.actor c))
       = (Ok tt, Controller.actor r.1.2, [])) /\
  (exists (c1 : Controller.t) (o1 : list out),
     Controller.update c = (Ok tt, c1, o1) /\
     Controller.actor (Controller.iteration (Key None) c).1.2 = Controller.actor c1) /\
  exists (c' : Controller.t) (o : list out),
    Controller.update (Controller.init 20 20) = (Ok tt, c', o) /\ safe 20 20 c'.
Proof.
  intros c r.
  pose proof update_consumes_one_input as (_ & Hup & Hit & Hret).
  split; [|split].
  - apply (Hup c r.1.2 r.2). vm_compute. reflexivity.
  - apply (Hit c (Key None) true _ (Controller.iteration (Key None) c).2).
    vm_compute. reflexivity.
  - apply Hret, safe_init.
Defined.

(** ** The screen's error list *)

Section ScreenInvariant.
(** A property of the screen that its methods keep is kept by the loop. *)
Variable PS : Screen.t -> Prop.
Hypothesis PS_pixels : forall s px, PS s -> PS (Screen.with_pixels px s).
Hypothesis PS_error : forall s e, PS s -> PS (Screen.with_errors (Screen.errors s ++ [e]) s).

Local Abbreviation P := (of_screen PS).

Lemma screen_inv_set_pixel (x y : Z) (p : pixel_t) : preserves PS (Screen.set_pixel x y p).
Proof.
  unfold Screen.set_pixel, Screen.overflow.
  pres; first [ by apply PS_error | by apply PS_pixels | assumption ].
Qed.

Lemma screen_inv_on_screen {A} (m : M Screen.t A) :
  preserves PS m -> preserves P (Controller.on_screen m).
Proof.
  intros Hm. apply (preserves_zoom _ _ _ _ (fun _ t => PS t)).
  - intros s Hs. exact Hs.
  - intros _. exact Hm.
  - intros s t Ht. exact Ht.
Qed.

Lemma screen_inv_clear : preserves PS Screen.clear.
Proof. unfold Screen.clear. pres. by apply PS_pixels. Qed.

Lemma screen_inv_show : preserves PS Screen.show.
Proof. unfold Screen.show. pres. Qed.

Lemma screen_inv_snake_draw (a : Snake.t) : preserves PS (Snake.draw a).
Proof. unfold Snake.draw. pres. apply screen_inv_set_pixel. Qed.

Lemma screen_inv_get_input : preserves P Controller.get_input.
Proof. intros c Hc. rewrite get_input_eq. exact Hc. Qed.

Lemma screen_inv_buffer_input (p : poll) : preserves P (Controller._buffer_input p).
Proof.
  unfold Controller._buffer_input, Controller.getch, Controller._add_error.
  pres; assumption.
Qed.

Lemma screen_inv_iteration (p : poll) : preserves P (Controller.iteration p).
Proof.
  apply inv_iteration.
  - apply screen_inv_on_screen, screen_inv_clear.
  - apply screen_inv_on_screen, screen_inv_show.
  - intros a. apply screen_inv_on_screen, screen_inv_snake_draw.
  - intros f. apply screen_inv_on_screen, screen_inv_set_pixel.
  - by intros.
  - by intros.
  - apply screen_inv_get_input.
  - apply screen_inv_buffer_input.
Qed.

Lemma screen_inv_start (polls : list poll) : preserves P (Controller.start polls).
Proof.
  apply inv_start.
  - apply screen_inv_on_screen, screen_inv_clear.
  - apply screen_inv_on_screen, screen_inv_show.
  - intros a. apply screen_inv_on_screen, screen_inv_snake_draw.
  - intros f. apply screen_inv_on_screen, screen_inv_set_pixel.
  - by intros.
  - by intros.
  - apply screen_inv_get_input.
  - apply screen_inv_buffer_input.
Qed.

End ScreenInvariant.

Lemma dict_set_elem {V} (name : string) (v : V) (d : list (string * V)) :
  (name, v) ∈ Controller.dict_set name v d.
Proof.
  induction d as [|[k v'] d IH]; cbn [Controller.dict_set].
  - apply list_elem_of_here.
  - destruct (String.eqb_spec k name) as [->|Hne].
    + apply list_elem_of_here.
    + by apply list_elem_of_further.
Qed.

Lemma dict_get_set_eq {V} (name : string) (v : V) (d : list (string * V)) :
  Controller.dict_get name (Controller.dict_set name v d) = Some v.
Proof.
  induction d as [|[k v'] d IH]; cbn [Controller.dict_set Controller.dict_get].
  - by rewrite String.eqb_refl.
  - destruct (String.eqb_spec k name) as [->|Hne]; cbn [Controller.dict_get].
    + by rewrite String.eqb_refl.
    + destruct (String.eqb_spec k name); done.
Qed.

Lemma dict_get_set_ne {V} (name name' : string) (v : V) (d : list (string * V)) :
  name <> name' ->
  Controller.dict_get name' (Controller.dict_set name v d) = Controller.dict_get name' d.
Proof.
  intros Hne. induction d as [|[k v'] d IH]; cbn [Controller.dict_set Controller.dict_get].
  - destruct (String.eqb_spec name name'); done.
  - destruct (String.eqb_spec k name) as [->|Hk]; cbn [Controller.dict_get].
    + destruct (String.eqb_spec name name'); done.
    + by rewrite IH.
Qed.

(** A poll that returns changes neither the screen nor the other entries
    of the diagnostics. *)
Lemma buffer_input_ok (p : poll) (c c' : Controller.t) (ch : option string) o :
  Controller._buffer_input p c = (Ok ch, c', o) ->
  Controller.screen c' = Controller.screen c /\
  Controller.errors c'
    = Controller.dict_set "input buffer" [InputBuffer] (Controller.errors c).
Proof.
  destruct p as [k|]; [|discriminate].
  destruct (decide (Controller._MAX_INPUT_BUFFER c < len (Controller._input_buffer c)
                    /\ Controller._input_buffer c = [])) as [[Hlt Hnil]|Hok].
  - unfold Controller._buffer_input, Controller.getch. msimpl.
    destruct (Z.ltb_spec (Controller._MAX_INPUT_BUFFER c) (len (Controller._input_buffer c)));
      [|lia].
    rewrite Hnil. discriminate.
  - rewrite buffer_input_eq by (intros ? ?; apply Hok; done).
    intros [= _ <- _]. done.
Qed.

(** C2, as it is claimed: refuted on the 8x8 controller, whose food at
    (10, 10) is off the screen and is turned down in every frame.  After
    one iteration the error list holds that frame's entry, and the second
    iteration collects two entries, one of them from the frame before. *)
Lemma fresh_each_frame_counterexample :
  ~ fresh_each_frame (Key None)
      (Controller.iteration (Key None) (Controller.init 8 8)).1.2.
Proof.
  intros H.
  set (c1 := (Controller.iteration (Key None) (Controller.init 8 8)).1.2) in H.
  specialize (H false (Controller.iteration (Key None) c1).1.2
                (Controller.iteration (Key None) c1).2).
  assert (E : Controller.iteration (Key None) c1
              = (Ok false, (Controller.iteration (Key None) c1).1.2,
                 (Controller.iteration (Key None) c1).2)) by (vm_compute; reflexivity).
  specialize (H E). vm_compute in H. discriminate H.
Qed.

(** C2, amended.  Nothing in the loop clears the screen's error list: an
    iteration, and any run of the loop, only extends it, so the entries of
    earlier frames stay at its front; and an iteration that completes has
    collected under ["screen"], and printed, the whole list as it stands. *)
Theorem screen_errors_accumulate :
  (forall (c : Controller.t) (p : poll),
     Screen.errors (Controller.screen c)
       `prefix_of` Screen.errors (Controller.screen (Controller.iteration p c).1.2)) /\
  (forall (c : Controller.t) (polls : list poll),
     Screen.errors (Controller.screen c)
       `prefix_of` Screen.errors (Controller.screen (Controller.start polls c).1.2)) /\
  (forall (c : Controller.t) (p : poll) (stop : bool) (c' : Controller.t) (o : list out),
     Controller.iteration p c = (Ok stop, c', o) ->
     collected_screen_errors c'
       = Some [VList (VStr <$> Screen.errors (Controller.screen c'))] /\
     diagnostic_line c' ("screen", [ScreenErrors]) ∈ o).
Proof.
  assert (Hpix : forall e0 s px,
    e0 `prefix_of` Screen.errors s -> e0 `prefix_of` Screen.errors (Screen.with_pixels px s))
    by (intros; done).
  assert (Herr : forall e0 s e,
    e0 `prefix_of` Screen.errors s ->
    e0 `prefix_of` Screen.errors (Screen.with_errors (Screen.errors s ++ [e]) s))
    by (intros e0 s e H; cbn; by apply prefix_app_r).
  split; [|split].
  - intros c p.
    apply (screen_inv_iteration (fun s => Screen.errors (Controller.screen c)
                                            `prefix_of` Screen.errors s)
             (Hpix _) (Herr _) p c).
    unfold of_screen. reflexivity.
  - intros c polls.
    apply (screen_inv_start (fun s => Screen.errors (Controller.screen c)
                                        `prefix_of` Screen.errors s)
             (Hpix _) (Herr _) polls c).
    unfold of_screen. reflexivity.
  - intros c p stop c' o Hit. unfold Controller.iteration in Hit.
    apply bind_ok_inv in Hit as (? & c1 & o1 & ? & _ & Hit & ->).
    apply bind_ok_inv in Hit as (? & c2 & o2 & ? & _ & Hit & ->).
    apply bind_ok_inv in Hit as (? & c3 & o3 & ? & Hget & Hit & ->).
    apply bind_ok_inv in Hit as (? & c4 & o4 & ? & Hshow & Hit & ->).
    apply bind_ok_inv in Hit as (? & c5 & o5 & ? & Hbuf & Hit & ->).
    rewrite received_exit_signal_eq in Hit.
    unfold Controller._get_errors in Hget. rewrite add_error_eq in Hget.
    rewrite show_error_eq in Hshow.
    apply buffer_input_ok in Hbuf as [Hscr Herrs].
    simplify_eq.
    cbn [Controller.errors Controller.screen Controller.with_errors] in Hscr, Herrs.
    split.
    + unfold collected_screen_errors. rewrite Herrs.
      rewrite dict_get_set_ne by discriminate.
      rewrite dict_get_set_eq. reflexivity.
    + replace (diagnostic_line c' ("screen", [ScreenErrors]))
        with (diagnostic_line
                (Controller.with_errors
                   (Controller.dict_set "screen" [ScreenErrors] (Controller.errors c2)) c2)
                ("screen", [ScreenErrors]))
        by (unfold diagnostic_line; cbn; by rewrite Hscr).
      rewrite !elem_of_app. right. right. right. left.
      apply elem_of_cons. right. apply elem_of_app. left.
      apply list_elem_of_fmap_2, dict_set_elem.
Qed.

Lemma screen_errors_accumulate_witness :
  let c := (Controller.iteration (Key None) (Controller.init 8 8)).1.2 in
  let r := Controller.iteration (Key None) c in
  collected_screen_errors r.1.2
    = Some [VList (VStr <$> Screen.errors (Controller.screen r.1.2))] /\
  diagnostic_line r.1.2 ("screen", [ScreenErrors]) ∈ r.2.
Proof.
  intros c r.
  pose proof screen_errors_accumulate as (_ & _ & H).
  apply (H c (Key None) false). vm_compute. reflexivity.
Defined.

(** * Further properties of the code *)

(** ** Screen: allocation, clearing, writing, rendering *)

Lemma range_lookup (n : Z) (i : nat) :
  (i < Z.to_nat n)%nat -> range n !! i = Some (Z.of_nat i).
Proof.
  intros Hi. unfold range, range3, range_len. simpl.
  destruct (Z.ltb_spec 0 n); [|lia].
  rewrite Z.div_1_r, list_lookup_fmap.
  rewrite lookup_seq_lt by lia. simpl. f_equal. lia.
Qed.

Lemma blank_cell (d : pixel_t) (w h : Z) (x y : nat) :
  (y < Z.to_nat w)%nat -> (x < Z.to_nat h)%nat ->
  cell (Screen.blank d w h) x y = Some d.
Proof.
  intros Hy Hx. unfold cell, Screen.blank.
  rewrite list_lookup_fmap, (range_lookup w y Hy). simpl.
  by apply lookup_replicate_2.
Qed.

(** X1.  [clear] never raises and prints nothing; it leaves a grid of
    [width] rows by [height] cells in which every cell is the background
    pixel, and it keeps the error list and every other field; clearing
    twice is clearing once. *)
Theorem clear_resets_grid (s : Screen.t) :
  exists s' : Screen.t,
    Screen.clear s = (Ok tt, s', []) /\
    grid (Z.to_nat (Screen.width s)) (Z.to_nat (Screen.height s)) (Screen.pixels s') /\
    (forall x y : nat,
       (y < Z.to_nat (Screen.width s))%nat -> (x < Z.to_nat (Screen.height s))%nat ->
       cell (Screen.pixels s') x y = Some (Screen.D_PIXEL s)) /\
    Screen.errors s' = Screen.errors s /\
    Screen.with_pixels (Screen.pixels s) s' = s /\
    Screen.clear s' = (Ok tt, s', []).
Proof.
  unfold Screen.clear. msimpl. eexists. split; [reflexivity|].
  split; [apply blank_grid|]. split; [intros x y; apply blank_cell|].
  split; [reflexivity|]. split; [by destruct s|]. msimpl. reflexivity.
Qed.

Lemma clear_resets_grid_witness :
  let s := (Screen.set_pixel 1 1 (Some "*", (1, 1, 1)) (Screen.init 2 3 (0, 0, 0))).1.2 in
  exists s' : Screen.t,
    Screen.clear s = (Ok tt, s', []) /\
    cell (Screen.pixels s') 1 1 = Some (None, (0, 0, 0)).
Proof.
  intros s. destruct (clear_resets_grid s) as (s' & E & _ & Hcell & _).
  exists s'. split; [exact E|]. apply Hcell; simpl; lia.
Defined.

(** X2.  A write the guard turns down is dropped, on any screen whatever
    the state of its grid: with a negative [x] or [y] (Python's negative
    indices never reach the grid), with [y] greater than the number of
    rows, or with [x] greater than the length of the first row, the call
    returns, the grid is untouched and exactly one message
    ["Screen overflow: x = <x>, y = <y>"] is appended to the error list. *)
Theorem set_pixel_rejected (s : Screen.t) (x y : Z) (p : pixel_t) :
  y < 0 \/ x < 0 \/ len (Screen.pixels s) < y \/
    (exists row0 rest, Screen.pixels s = row0 :: rest /\ len row0 < x) ->
  Screen.set_pixel x y p s =
    (Ok tt,
     Screen.with_errors
       (Screen.errors s ++ ["Screen overflow: x = " +:+ pretty x +:+ ", y = " +:+ pretty y]) s,
     []) /\
  Screen.pixels (Screen.set_pixel x y p s).1.2 = Screen.pixels s.
Proof.
  intros Hout.
  assert (Hov : Screen.overflow x y s = (Ok true, s, [])).
  { unfold Screen.overflow. msimpl.
    destruct (Z.ltb_spec y 0); [reflexivity|].
    destruct (Z.ltb_spec x 0); [reflexivity|].
    destruct (Z.ltb_spec (len (Screen.pixels s)) y); [reflexivity|].
    destruct Hout as [?|[?|[?|(row0 & rest & Hpx & Hx)]]]; [lia..|].
    rewrite Hpx. msimpl.
    erewrite bind_pure; [|apply (getitem_in _ 0 row0); done].
    destruct (Z.ltb_spec (len row0) x); [reflexivity|lia]. }
  rewrite (set_pixel_reject s x y p Hov). split; reflexivity.
Qed.

Lemma set_pixel_rejected_witness :
  Screen.set_pixel (-1) 0 (Some "*", (1, 1, 1)) (Screen.init 3 3 (0, 0, 0)) =
    (Ok tt,
     Screen.with_errors ["Screen overflow: x = -1, y = 0"] (Screen.init 3 3 (0, 0, 0)), []) /\
  Screen.pixels (Screen.set_pixel (-1) 0 (Some "*", (1, 1, 1)) (Screen.init 3 3 (0, 0, 0))).1.2
    = Screen.pixels (Screen.init 3 3 (0, 0, 0)).
Proof.
  apply (set_pixel_rejected (Screen.init 3 3 (0, 0, 0)) (-1) 0). right. left. lia.
Defined.

Lemma cell_insert (px : list (list pixel_t)) (row : list pixel_t) (i j : nat) (p : pixel_t) :
  px !! j = Some row -> (i < length row)%nat ->
  cell (<[j := <[i := p]> row]> px) i j = Some p /\
  forall i' j', (i', j') <> (i, j) ->
    cell (<[j := <[i := p]> row]> px) i' j' = cell px i' j'.
Proof.
  intros Hrow Hi. pose proof (lookup_lt_Some _ _ _ Hrow) as Hj. split.
  - unfold cell. rewrite list_lookup_insert_eq by done.
    by apply list_lookup_insert_eq.
  - intros i' j' Hne. unfold cell.
    destruct (decide (j' = j)) as [->|Hj'].
    + rewrite list_lookup_insert_eq by done. rewrite Hrow.
      apply list_lookup_insert_ne. congruence.
    + by rewrite list_lookup_insert_ne.
Qed.

(** X3.  A write inside the allocated grid, that is with [0 <= y] below
    the number of rows and [0 <= x] below the row length, returns and
    replaces the cell [pixels[y][x]] alone: every other cell, the shape of
    the grid and the error list are as before. *)
Theorem set_pixel_writes_one_cell (s : Screen.t) (R C : nat) (x y : Z) (p : pixel_t) :
  grid R C (Screen.pixels s) ->
  0 <= x < Z.of_nat C -> 0 <= y < Z.of_nat R ->
  exists s' : Screen.t,
    Screen.set_pixel x y p s = (Ok tt, s', []) /\
    cell (Screen.pixels s') (Z.to_nat x) (Z.to_nat y) = Some p /\
    (forall x' y' : nat,
       (x', y') <> (Z.to_nat x, Z.to_nat y) ->
       cell (Screen.pixels s') x' y' = cell (Screen.pixels s) x' y') /\
    grid R C (Screen.pixels s') /\
    Screen.errors s' = Screen.errors s.
Proof.
  intros Hg Hx Hy.
  destruct (set_pixel_inside s R C x y p Hg Hx Hy) as (row & Hrow & E).
  eexists. split; [exact E|].
  cbn [Screen.pixels Screen.errors Screen.with_pixels].
  assert (Hlen : (Z.to_nat x < length row)%nat).
  { destruct Hg as [_ HC]. rewrite (Forall_lookup_1 _ _ _ _ HC Hrow). lia. }
  destruct (cell_insert _ _ (Z.to_nat x) (Z.to_nat y) p Hrow Hlen) as [H1 H2].
  split; [exact H1|]. split; [exact H2|]. split; [by apply grid_insert|reflexivity].
Qed.

Lemma set_pixel_writes_one_cell_witness :
  exists s' : Screen.t,
    Screen.set_pixel 1 2 (Some "*", (1, 1, 1)) (Screen.init 3 4 (0, 0, 0)) = (Ok tt, s', []) /\
    cell (Screen.pixels s') 1 2 = Some (Some "*", (1, 1, 1)) /\
    (forall x' y' : nat,
       (x', y') <> (1%nat, 2%nat) ->
       cell (Screen.pixels s') x' y'
         = cell (Screen.pixels (Screen.init 3 4 (0, 0, 0))) x' y') /\
    grid 3 4 (Screen.pixels s') /\
    Screen.errors s' = Screen.errors (Screen.init 3 4 (0, 0, 0)).
Proof.
  apply (set_pixel_writes_one_cell (Screen.init 3 4 (0, 0, 0)) 3 4 1 2);
    [apply (init_grid 3 4) | lia | lia].
Defined.

Lemma init_no_rows (w h : Z) (c : color_t) :
  w <= 0 -> Screen.pixels (Screen.init w h c) = [].
Proof.
  intros Hw. cbn [Screen.init Screen.pixels]. unfold Screen.blank.
  apply length_zero_iff_nil. rewrite length_fmap, range_length. lia.
Qed.

Lemma show_no_rows (s : Screen.t) :
  Screen.pixels s = [] ->
  Screen.show s = (Raise IndexError, s, [Printed [VStr (ESC +:+ "[2J" +:+ ESC +:+ "[H")]]).
Proof.
  intros Hpx. unfold Screen.show.
  erewrite bind_out; [|reflexivity]. msimpl. rewrite Hpx. reflexivity.
Qed.

(** X4.  A screen of width zero or less has no rows, and then nothing can
    be drawn or shown: a write with [y = 0] and [x >= 0] raises
    [IndexError] from the guard's own [self.pixels[0]], every other write
    is turned down with a message, and [show] raises [IndexError] once the
    terminal has been cleared. *)
Theorem screen_without_rows :
  (forall (w h : Z) (c : color_t), w <= 0 -> Screen.pixels (Screen.init w h c) = []) /\
  (forall s : Screen.t,
     Screen.pixels s = [] ->
     (forall (x : Z) (p : pixel_t),
        0 <= x -> Screen.set_pixel x 0 p s = (Raise IndexError, s, [])) /\
     (forall (x y : Z) (p : pixel_t),
        y <> 0 \/ x < 0 ->
        Screen.set_pixel x y p s =
          (Ok tt,
           Screen.with_errors (Screen.errors s ++ [Screen.overflow_msg x y]) s, [])) /\
     Screen.show s
       = (Raise IndexError, s, [Printed [VStr (ESC +:+ "[2J" +:+ ESC +:+ "[H")]])).
Proof.
  split; [exact init_no_rows|].
  intros s Hpx. split; [|split; [|by apply show_no_rows]].
  - intros x p Hx. unfold Screen.set_pixel, Screen.overflow. msimpl.
    destruct (Z.ltb_spec x 0); [lia|]. rewrite Hpx. reflexivity.
  - intros x y p Hout. apply set_pixel_reject.
    unfold Screen.overflow. msimpl.
    destruct (Z.ltb_spec y 0); [reflexivity|].
    destruct (Z.ltb_spec x 0); [reflexivity|].
    rewrite Hpx. destruct (Z.ltb_spec (len (@nil (list pixel_t))) y); [reflexivity|].
    unfold len in *. simpl in *. lia.
Qed.

Lemma screen_without_rows_witness :
  Screen.set_pixel 0 0 (Some "*", (1, 1, 1)) (Screen.init 0 5 (0, 0, 0))
    = (Raise IndexError, Screen.init 0 5 (0, 0, 0), []) /\
  Screen.set_pixel 0 1 (Some "*", (1, 1, 1)) (Screen.init 0 5 (0, 0, 0))
    = (Ok tt, Screen.with_errors [Screen.overflow_msg 0 1] (Screen.init 0 5 (0, 0, 0)), []) /\
  Screen.show (Screen.init 0 5 (0, 0, 0))
    = (Raise IndexError, Screen.init 0 5 (0, 0, 0),
       [Printed [VStr (ESC +:+ "[2J" +:+ ESC +:+ "[H")]]).
Proof.
  pose proof screen_without_rows as [Hinit Hs].
  destruct (Hs (Screen.init 0 5 (0, 0, 0)) (Hinit 0 5 (0, 0, 0) ltac:(lia)))
    as (Hraise & Hrej & Hshow).
  split; [apply Hraise; lia|]. split; [apply Hrej; left; lia|exact Hshow].
Defined.

Lemma draw_pixel_glyph (s : Screen.t) (px : pixel_t) :
  Screen._draw_pixel s px = draw_glyph (Screen.bgd_xter s) px.1.
Proof. destruct px as [[c|] col]; reflexivity. Qed.

Lemma show_rows (s : Screen.t) (row0 : list pixel_t) (rest : list (list pixel_t)) :
  Screen.pixels s = row0 :: rest ->
  Screen.show s =
    (Ok tt, s,
     [Printed [VStr (ESC +:+ "[2J" +:+ ESC +:+ "[H")];
      Printed [VStr (page_of (Screen.bgd_xter s) (glyphs (Screen.pixels s)))]]).
Proof.
  intros Hpx. unfold Screen.show.
  erewrite bind_out; [|reflexivity]. msimpl.
  erewrite bind_pure; [|apply (getitem_in _ 0 row0); [lia|by rewrite Hpx]].
  assert (Hbar : length (default [] (head (glyphs (Screen.pixels s)))) = length row0).
  { unfold glyphs. rewrite Hpx. cbn. apply length_fmap. }
  assert (Hrows :
    (fun row => Screen._bgd "│" +:+ join " " (Screen._draw_pixel s <$> row)
                +:+ Screen._bgd "│") <$> Screen.pixels s
    = (fun row => Screen._bgd "│" +:+ join " " (draw_glyph (Screen.bgd_xter s) <$> row)
                  +:+ Screen._bgd "│") <$> glyphs (Screen.pixels s)).
  { unfold glyphs. rewrite <- list_fmap_compose. apply list_fmap_ext.
    intros i row _. cbn. do 2 f_equal.
    rewrite <- list_fmap_compose. f_equal. apply list_fmap_ext.
    intros j px _. apply draw_pixel_glyph. }
  unfold print, page_of. rewrite Hbar, <- Hrows. reflexivity.
Qed.

(** X5.  [show] is a projection of the glyph grid: it never changes the
    screen, returning or raising; with at least one row it returns after
    two prints, the sequence that clears the terminal and the page; and
    what it prints depends on the glyphs and the background character
    alone, the colours of the pixels and the error list having no effect. *)
Theorem show_is_projection :
  (forall s : Screen.t, (Screen.show s).1.2 = s) /\
  (forall (s : Screen.t) (row0 : list pixel_t) (rest : list (list pixel_t)),
     Screen.pixels s = row0 :: rest ->
     exists page : string,
       Screen.show s =
         (Ok tt, s, [Printed [VStr (ESC +:+ "[2J" +:+ ESC +:+ "[H")]; Printed [VStr page]])) /\
  (forall s1 s2 : Screen.t,
     Screen.bgd_xter s1 = Screen.bgd_xter s2 ->
     glyphs (Screen.pixels s1) = glyphs (Screen.pixels s2) ->
     (Screen.show s1).1.1 = (Screen.show s2).1.1 /\ (Screen.show s1).2 = (Screen.show s2).2).
Proof.
  split; [|split].
  - intros s. destruct (Screen.pixels s) as [|row0 rest] eqn:Hpx.
    + by rewrite show_no_rows.
    + by rewrite (show_rows s row0 rest).
  - intros s row0 rest Hpx. eexists. by apply (show_rows s row0 rest).
  - intros s1 s2 Hbgd Hgl.
    destruct (Screen.pixels s1) as [|r1 rest1] eqn:Hpx1;
      destruct (Screen.pixels s2) as [|r2 rest2] eqn:Hpx2; try discriminate.
    + by rewrite !show_no_rows.
    + rewrite (show_rows s1 r1 rest1 Hpx1), (show_rows s2 r2 rest2 Hpx2).
      rewrite Hpx1, Hpx2, Hgl, Hbgd. done.
Qed.

Lemma show_is_projection_witness :
  (exists page : string,
     Screen.show (Screen.init 2 2 (0, 0, 0)) =
       (Ok tt, Screen.init 2 2 (0, 0, 0),
        [Printed [VStr (ESC +:+ "[2J" +:+ ESC +:+ "[H")]; Printed [VStr page]])) /\
  (Screen.show (Screen.init 2 2 (0, 0, 0))).2 = (Screen.show (Screen.init 2 2 (7, 8, 9))).2.
Proof.
  pose proof show_is_projection as (_ & Hrows & Hsame).
  split.
  - apply (Hrows _ (replicate 2 (None, (0, 0, 0))) [replicate 2 (None, (0, 0, 0))]).
    reflexivity.
  - apply Hsame; reflexivity.
Defined.

Lemma overflow_cases (s : Screen.t) (x y : Z) :
  (exists b : bool, Screen.overflow x y s = (Ok b, s, [])) \/
  Screen.overflow x y s = (Raise IndexError, s, []).
Proof.
  unfold Screen.overflow. msimpl.
  destruct (y <? 0); [left; by eexists|].
  destruct (x <? 0); [left; by eexists|].
  destruct (len (Screen.pixels s) <? y); [left; by eexists|].
  unfold getitem. destruct (norm_index (Screen.pixels s) 0) as [k|]; [|by right].
  destruct (Screen.pixels s !! k); [|by right].
  msimpl. left. by eexists.
Qed.

(** The three things [set_pixel] can do. *)
Lemma set_pixel_cases (s : Screen.t) (x y : Z) (p : pixel_t) :
  Screen.set_pixel x y p s = (Raise IndexError, s, []) \/
  Screen.set_pixel x y p s =
    (Ok tt, Screen.with_errors (Screen.errors s ++ [Screen.overflow_msg x y]) s, []) \/
  exists (k i : nat) (row : list pixel_t),
    Screen.pixels s !! k = Some row /\
    Screen.set_pixel x y p s =
      (Ok tt, Screen.with_pixels (<[k := <[i := p]> row]> (Screen.pixels s)) s, []).
Proof.
  destruct (overflow_cases s x y) as [[[|] Hov]|Hov].
  - right. left. by apply set_pixel_reject.
  - assert (E : Screen.set_pixel x y p s =
      (let* row := getitem (Screen.pixels s) y in
       let* row' := setitem row x p in
       match norm_index (Screen.pixels s) y with
       | Some k => put (Screen.with_pixels (<[k := row']> (Screen.pixels s)) s)
       | None => raise IndexError
       end) s).
    { unfold Screen.set_pixel. erewrite bind_pure; [|exact Hov].
      cbv iota. by rewrite bind_get. }
    rewrite E. clear E. unfold getitem. destruct (norm_index (Screen.pixels s) y) as [k|]; [|by left].
    destruct (Screen.pixels s !! k) as [row|] eqn:Hrow; [|by left].
    msimpl. unfold setitem. destruct (norm_index row x) as [i|]; [|by left].
    msimpl. right. right. by exists k, i, row.
  - left. unfold Screen.set_pixel, bind. by rewrite Hov.
Qed.

Lemma shaped_set_pixel (x y : Z) (p : pixel_t) : preserves shaped (Screen.set_pixel x y p).
Proof.
  intros s Hs.
  destruct (set_pixel_cases s x y p) as [E|[E|(k & i & row & Hrow & E)]]; rewrite E.
  - exact Hs.
  - exact Hs.
  - unfold shaped in *. cbn. by apply grid_insert.
Qed.

Lemma shaped_clear : preserves shaped Screen.clear.
Proof. intros s _. unfold Screen.clear, shaped. msimpl. cbn. apply blank_grid. Qed.

Lemma shaped_show : preserves shaped Screen.show.
Proof.
  intros s Hs. destruct (Screen.pixels s) as [|row0 rest] eqn:Hpx.
  - by rewrite show_no_rows.
  - by rewrite (show_rows s row0 rest).
Qed.

Lemma shaped_start (polls : list poll) :
  preserves (of_screen shaped) (Controller.start polls).
Proof.
  apply inv_start.
  - apply screen_inv_on_screen, shaped_clear.
  - apply screen_inv_on_screen, shaped_show.
  - intros a. apply screen_inv_on_screen. unfold Snake.draw.
    apply preserves_for. intros pos. apply shaped_set_pixel.
  - intros f. apply screen_inv_on_screen, shaped_set_pixel.
  - by intros.
  - by intros.
  - intros c Hc. rewrite get_input_eq. exact Hc.
  - intros p. unfold Controller._buffer_input, Controller.getch, Controller._add_error.
    pres; assumption.
Qed.

(** X6.  The pixel grid always has [width] rows of [height] cells: it has
    at construction, [clear] re-establishes it, [set_pixel] and [show]
    keep it whatever their outcome, and so does any run of the game loop,
    returning or raising. *)
Theorem grid_shape_invariant :
  (forall (w h : Z) (c : color_t), shaped (Screen.init w h c)) /\
  (forall s : Screen.t, shaped (Screen.clear s).1.2) /\
  (forall (s : Screen.t) (x y : Z) (p : pixel_t),
     shaped s -> shaped (Screen.set_pixel x y p s).1.2) /\
  (forall s : Screen.t, shaped s -> shaped (Screen.show s).1.2) /\
  (forall (c : Controller.t) (polls : list poll),
     shaped (Controller.screen c) ->
     shaped (Controller.screen (Controller.start polls c).1.2)) /\
  (forall (w h : Z) (polls : list poll),
     shaped (Controller.screen (Controller.start polls (Controller.init w h)).1.2)).
Proof.
  split; [intros w h c; apply blank_grid|].
  split; [intros s; unfold Screen.clear, shaped; msimpl; cbn; apply blank_grid|].
  split; [intros s x y p; apply shaped_set_pixel|].
  split; [exact shaped_show|].
  split; [intros c polls; apply (shaped_start polls c)|].
  intros w h polls. apply (shaped_start polls). apply blank_grid.
Qed.

Lemma grid_shape_invariant_witness :
  shaped (Screen.set_pixel 1 1 (Some "*", (1, 1, 1)) (Screen.init 3 2 (0, 0, 0))).1.2 /\
  shaped (Controller.screen
            (Controller.start [Key None; Key (Some "w")] (Controller.init 8 8)).1.2).
Proof.
  pose proof grid_shape_invariant as (Hinit & _ & Hset & _ & Hrun & _).
  split.
  - apply Hset, Hinit.
  - apply Hrun. apply Hinit.
Defined.

(** ** Snake: construction and movement *)

Lemma range_eq (n : Z) : range n = Z.of_nat <$> seq 0 (Z.to_nat n).
Proof.
  unfold range, range3, range_len. simpl.
  destruct (Z.ltb_spec 0 n).
  - rewrite Z.div_1_r. replace (Z.to_nat (n - 0 - 1 + 1)) with (Z.to_nat n) by lia.
    apply list_fmap_ext. intros i k _. lia.
  - replace (Z.to_nat n) with 0%nat by lia. reflexivity.
Qed.

Lemma create_snake_loop (x y : Z) (m : nat) : forall (a : nat) (pre : list pos_t),
  length pre = a ->
  for_ (Z.of_nat <$> seq a m) (fun i =>
    let* snake := get in
    let* snake' := setitem snake i (x, y + i) in
    put snake') (pre ++ replicate m (0, 0))
  = (Ok tt, pre ++ ((fun i : nat => (x, y + Z.of_nat i)) <$> seq a m), []).
Proof.
  induction m as [|m IH]; intros a pre <-; [reflexivity|].
  cbn [seq fmap list_fmap for_ replicate].
  erewrite bind_pure; cycle 1.
  { rewrite bind_get. erewrite bind_pure; cycle 1.
    { apply setitem_in. rewrite len_app, len_cons. unfold len, pos_t. lia. }
    replace (Z.to_nat (Z.of_nat (length pre))) with (length pre + 0)%nat by lia.
    rewrite insert_app_r. cbn [insert list_insert]. reflexivity. }
  rewrite (cons_middle _ pre), app_assoc.
  rewrite (IH (S (length pre))) by (rewrite length_app; simpl; lia).
  by rewrite <- app_assoc.
Qed.

Lemma create_snake_eq (x y length : Z) (l0 : list pos_t) :
  Snake._create_snake (x, y) length l0
  = (Ok tt, (fun i : nat => (x, y + Z.of_nat i)) <$> seq 0 (Z.to_nat length), []).
Proof.
  unfold Snake._create_snake. rewrite bind_put, range_eq.
  apply (create_snake_loop x y (Z.to_nat length) 0 []). reflexivity.
Qed.

(** X7.  [_create_snake(start, length)] never raises: it builds a body of
    [length] segments (none when [length] is zero or negative) laid out
    along the y axis from [start], segment [i] at [(x, y + i)]; a new
    snake has that body and its [pos] is [start]. *)
Theorem create_snake_layout (x y length : Z) (world : option world_ref)
    (color : option color_t) (direction : pos_t) (speed : Z) (character : option string) :
  let s := Snake.init (x, y) world color length direction speed character in
  (forall l0 : list pos_t,
     Snake._create_snake (x, y) length l0 = (Ok tt, Snake.body s, [])) /\
  List.length (Snake.body s) = Z.to_nat length /\
  (forall i : nat, (i < Z.to_nat length)%nat ->
     Snake.body s !! i = Some (x, y + Z.of_nat i)) /\
  Snake.pos s = (x, y).
Proof.
  intros s.
  assert (Hb : Snake.body s
               = (fun i : nat => (x, y + Z.of_nat i)) <$> seq 0 (Z.to_nat length)).
  { unfold s, Snake.init. cbn [Snake.body]. by rewrite create_snake_eq. }
  rewrite Hb. split; [intros l0; apply create_snake_eq|].
  split; [by rewrite length_fmap, length_seq|].
  split; [|reflexivity].
  intros i Hi. rewrite list_lookup_fmap, lookup_seq_lt by done. reflexivity.
Qed.

Lemma create_snake_layout_witness :
  let s := Snake.init (3, 4) None None 9 (1, 0) 1 None in
  List.length (Snake.body s) = 9%nat /\
  Snake.body s !! 8%nat = Some (3, 4 + 8) /\
  Snake.body (Snake.init (3, 4) None None (-2) (1, 0) 1 None) = [].
Proof.
  intros s.
  pose proof (create_snake_layout 3 4 9 None None (1, 0) 1 None) as (_ & Hlen & Hseg & _).
  pose proof (create_snake_layout 3 4 (-2) None None (1, 0) 1 None) as (_ & Hlen0 & _).
  split; [exact Hlen|]. split; [apply (Hseg 8%nat); simpl; lia|].
  apply length_zero_iff_nil. exact Hlen0.
Defined.

(** X8.  [_move(pos, dx, dy, w, h)] raises [ZeroDivisionError] exactly
    when [w] or [h] is zero and otherwise returns, changing no state; each
    coordinate of its answer has the sign of the modulus, in [0, w) for a
    positive [w] and in (w, 0] for a negative one; and translating by a
    further multiple of [w] along x and of [h] along y gives the same
    answer. *)
Theorem move_wraps_by_modulus {S : Type} (pos : pos_t) (dx dy w h : Z) (s : S) :
  (w = 0 \/ h = 0 -> Snake._move pos dx dy w h s = (Raise ZeroDivisionError, s, [])) /\
  (w <> 0 -> h <> 0 ->
   exists x' y' : Z,
     Snake._move pos dx dy w h s = (Ok (x', y'), s, []) /\
     (0 < w -> 0 <= x' < w) /\ (w < 0 -> w < x' <= 0) /\
     (0 < h -> 0 <= y' < h) /\ (h < 0 -> h < y' <= 0) /\
     forall j k : Z,
       Snake._move pos (dx + j * w) (dy + k * h) w h s = (Ok (x', y'), s, [])).
Proof.
  destruct pos as [x y]. unfold Snake._move, Snake.py_mod. split.
  - intros Hz. destruct (Z.eqb_spec w 0); [reflexivity|].
    msimpl. destruct (Z.eqb_spec h 0); [reflexivity|]. lia.
  - intros Hw Hh.
    destruct (Z.eqb_spec w 0); [done|]. destruct (Z.eqb_spec h 0); [done|].
    exists ((x + dx) `mod` w), ((y + dy) `mod` h). msimpl.
    split; [reflexivity|].
    split; [intros; apply Z.mod_pos_bound; lia|].
    split; [intros; apply Z.mod_neg_bound; lia|].
    split; [intros; apply Z.mod_pos_bound; lia|].
    split; [intros; apply Z.mod_neg_bound; lia|].
    intros j k. rewrite !Z.add_assoc, !Z.mod_add by done. msimpl. reflexivity.
Qed.

Lemma move_wraps_by_modulus_witness :
  Snake._move (0, 0) (-1) 1 0 5 tt = (Raise ZeroDivisionError, tt, []) /\
  exists x' y' : Z,
    Snake._move (0, 0) (-1) 1 (-4) 5 tt = (Ok (x', y'), tt, []) /\
    (0 < -4 -> 0 <= x' < -4) /\ (-4 < 0 -> -4 < x' <= 0) /\
    (0 < 5 -> 0 <= y' < 5) /\ (5 < 0 -> 5 < y' <= 0) /\
    forall j k : Z,
      Snake._move (0, 0) (-1 + j * -4) (1 + k * 5) (-4) 5 tt = (Ok (x', y'), tt, []).
Proof.
  split.
  - apply (move_wraps_by_modulus (0, 0) (-1) 1 0 5 tt). left. reflexivity.
  - apply (move_wraps_by_modulus (0, 0) (-1) 1 (-4) 5 tt); lia.
Defined.

Lemma move_ok (heap : World.t) (s : Snake.t) (x y : Z) (rest : list pos_t) :
  Snake.body s = (x, y) :: rest ->
  Snake.world s = Some TheWorld ->
  World.width heap <> 0 -> World.height heap <> 0 ->
  Snake.move heap s =
    (Ok tt,
     Snake.with_pos (wrapped heap s (x, y) 1)
       (Snake.with_body (wrapped heap s (x, y) 1 :: removelast (Snake.body s)) s),
     []).
Proof.
  intros Hb Hw HW HH. rewrite move_eq. unfold translate_outcome, wrapped.
  rewrite Hb, Hw.
  destruct (Z.eqb_spec (World.width heap) 0); [done|].
  destruct (Z.eqb_spec (World.height heap) 0); [done|].
  cbn [fst snd]. rewrite !Z.mul_1_l. reflexivity.
Qed.

Lemma wrapped_wrapped (heap : World.t) (s s1 : Snake.t) (p : pos_t) (k : Z) :
  Snake.direction s1 = Snake.direction s -> Snake.speed s1 = Snake.speed s ->
  wrapped heap s1 (wrapped heap s p 1) k = wrapped heap s p (k + 1).
Proof.
  intros Hd Hs. unfold wrapped. rewrite Hd, Hs. cbn [fst snd].
  f_equal; rewrite Zplus_mod_idemp_l; f_equal; lia.
Qed.

(** The body after [n] moves, segment by segment. *)
Lemma moves_lookup (heap : World.t) (n : nat) :
  forall (s : Snake.t) (x y : Z) (rest : list pos_t),
  Snake.body s = (x, y) :: rest ->
  Snake.world s = Some TheWorld ->
  World.width heap <> 0 -> World.height heap <> 0 ->
  exists s' : Snake.t,
    moves heap n s = (Ok tt, s', []) /\
    Snake.direction s' = Snake.direction s /\
    Snake.speed s' = Snake.speed s /\
    length (Snake.body s') = length (Snake.body s) /\
    (forall i : nat, (i < length (Snake.body s))%nat ->
       Snake.body s' !! i =
         if decide (i < n)%nat
         then Some (wrapped heap s (x, y) (Z.of_nat n - Z.of_nat i))
         else Snake.body s !! (i - n)%nat) /\
    ((0 < n)%nat -> Snake.pos s' = wrapped heap s (x, y) (Z.of_nat n)).
Proof.
  induction n as [|n IH]; intros s x y rest Hb Hw HW HH.
  - exists s. split; [reflexivity|]. repeat (split; [reflexivity|]). split; [|lia].
    intros i Hi. destruct (decide (i < 0)%nat); [lia|]. by rewrite Nat.sub_0_r.
  - cbn [moves]. erewrite bind_pure; [|by apply (move_ok heap s x y rest)].
    set (h1 := wrapped heap s (x, y) 1).
    set (s1 := Snake.with_pos h1 (Snake.with_body (h1 :: removelast (Snake.body s)) s)).
    destruct (IH s1 h1.1 h1.2 (removelast (Snake.body s)))
      as (s' & Hrun & Hdir & Hsp & Hlen & Hlook & Hpos); [by destruct h1|done..|].
    assert (Hlen1 : length (Snake.body s1) = length (Snake.body s)).
    { cbn. rewrite removelast_length, Hb. reflexivity. }
    exists s'. split; [exact Hrun|]. split; [exact Hdir|]. split; [exact Hsp|].
    split; [by rewrite Hlen|]. split.
    + intros i Hi. rewrite Hlook by lia.
      replace (h1.1, h1.2) with h1 by (by destruct h1).
      destruct (decide (i < n)%nat); destruct (decide (i < S n)%nat); try lia.
      * f_equal. unfold h1. rewrite wrapped_wrapped by done. f_equal. lia.
      * replace (i - n)%nat with 0%nat by lia. cbn. f_equal.
        unfold h1. f_equal. lia.
      * replace (i - n)%nat with (S (i - S n)) by lia. cbn [s1 Snake.body Snake.with_pos
          Snake.with_body lookup list_lookup].
        apply removelast_lookup. lia.
    + intros _. destruct n as [|n].
      * injection Hrun as <-. reflexivity.
      * rewrite Hpos by lia. replace (h1.1, h1.2) with h1 by (by destruct h1).
        unfold h1. rewrite wrapped_wrapped by done. f_equal. lia.
Qed.

(** X9.  On a snake with a body, attached to a world of non-zero
    dimensions, any number [n] of moves returns, and after [n >= 1] moves
    the head and [pos] are the starting head translated by [n] steps
    (direction times speed) and wrapped once; so when [n] steps cover a
    multiple of the width along x and of the height along y the head is
    back at the wrapped starting cell. *)
Theorem moves_head_position (heap : World.t) (s : Snake.t) (x y : Z)
    (rest : list pos_t) (n : nat) :
  Snake.body s = (x, y) :: rest ->
  Snake.world s = Some TheWorld ->
  World.width heap <> 0 -> World.height heap <> 0 ->
  (0 < n)%nat ->
  exists s' : Snake.t,
    moves heap n s = (Ok tt, s', []) /\
    Snake.body s' !! 0%nat = Some (wrapped heap s (x, y) (Z.of_nat n)) /\
    Snake.pos s' = wrapped heap s (x, y) (Z.of_nat n) /\
    ((World.width heap | Z.of_nat n * ((Snake.direction s).1 * Snake.speed s)) ->
     (World.height heap | Z.of_nat n * ((Snake.direction s).2 * Snake.speed s)) ->
     Snake.pos s' = (x `mod` World.width heap, y `mod` World.height heap)).
Proof.
  intros Hb Hw HW HH Hn.
  destruct (moves_lookup heap n s x y rest Hb Hw HW HH)
    as (s' & Hrun & _ & _ & _ & Hlook & Hpos).
  exists s'. split; [exact Hrun|]. split; [|split; [by apply Hpos|]].
  - rewrite Hlook by (rewrite Hb; simpl; lia).
    destruct (decide (0 < n)%nat); [|lia]. do 2 f_equal. lia.
  - intros [a Ha] [b Hb']. rewrite Hpos by done. unfold wrapped. cbn [fst snd].
    rewrite Ha, Hb'. by rewrite !Z.mod_add.
Qed.

Lemma moves_head_position_witness :
  exists s' : Snake.t,
    moves (World.init 20 20) 20 (Snake.init (0, 0) (Some TheWorld) None 9 (1, 0) 1 None)
      = (Ok tt, s', []) /\
    Snake.body s' !! 0%nat = Some (0, 0) /\
    Snake.pos s' = (0, 0) /\
    ((20 | 20 * (1 * 1)) -> (20 | 20 * (0 * 1)) -> Snake.pos s' = (0, 0)).
Proof.
  apply (moves_head_position (World.init 20 20)
           (Snake.init (0, 0) (Some TheWorld) None 9 (1, 0) 1 None) 0 0
           ((fun i : nat => (0, 0 + Z.of_nat i)) <$> seq 1 8) 20);
    first [reflexivity | discriminate | lia].
Defined.

(** X10.  The body follows the head's trail: after [n] moves that return,
    segment [i] of the body is where the head was [i] moves earlier, the
    starting head translated by [n - i] steps and wrapped, for [i < n];
    and the segments from [n] on are the first segments of the starting
    body, moved back by [n] places. *)
Theorem moves_body_trail (heap : World.t) (s : Snake.t) (x y : Z)
    (rest : list pos_t) (n : nat) :
  Snake.body s = (x, y) :: rest ->
  Snake.world s = Some TheWorld ->
  World.width heap <> 0 -> World.height heap <> 0 ->
  exists s' : Snake.t,
    moves heap n s = (Ok tt, s', []) /\
    length (Snake.body s') = length (Snake.body s) /\
    (forall i : nat, (i < n)%nat -> (i < length (Snake.body s))%nat ->
       Snake.body s' !! i = Some (wrapped heap s (x, y) (Z.of_nat n - Z.of_nat i))) /\
    (forall i : nat, (n <= i)%nat -> (i < length (Snake.body s))%nat ->
       Snake.body s' !! i = Snake.body s !! (i - n)%nat).
Proof.
  intros Hb Hw HW HH.
  destruct (moves_lookup heap n s x y rest Hb Hw HW HH)
    as (s' & Hrun & _ & _ & Hlen & Hlook & _).
  exists s'. split; [exact Hrun|]. split; [exact Hlen|]. split.
  - intros i Hi Hl. rewrite Hlook by done. by destruct (decide (i < n)%nat); [|lia].
  - intros i Hi Hl. rewrite Hlook by done. by destruct (decide (i < n)%nat); [lia|].
Qed.

Lemma moves_body_trail_witness :
  exists s' : Snake.t,
    moves (World.init 20 20) 3 (Snake.init (0, 0) (Some TheWorld) None 5 (-1, 0) 1 None)
      = (Ok tt, s', []) /\
    length (Snake.body s') = 5%nat /\
    (forall i : nat, (i < 3)%nat -> (i < 5)%nat ->
       Snake.body s' !! i
         = Some (wrapped (World.init 20 20)
                   (Snake.init (0, 0) (Some TheWorld) None 5 (-1, 0) 1 None) (0, 0)
                   (3 - Z.of_nat i))) /\
    (forall i : nat, (3 <= i)%nat -> (i < 5)%nat ->
       Snake.body s' !! i
         = Snake.body (Snake.init (0, 0) (Some TheWorld) None 5 (-1, 0) 1 None)
             !! (i - 3)%nat).
Proof.
  apply (moves_body_trail (World.init 20 20)
           (Snake.init (0, 0) (Some TheWorld) None 5 (-1, 0) 1 None) 0 0
           ((fun i : nat => (0, 0 + Z.of_nat i)) <$> seq 1 4) 3);
    first [reflexivity | discriminate].
Defined.

(** X11.  A move that fails leaves its mark.  On an empty body [move]
    raises [IndexError] and changes nothing; on a snake with a body but
    without a world it raises [AttributeError], and in a world of zero
    width or height [ZeroDivisionError], in both cases after the copy loop
    has run: the body is left shifted by one, its head doubled and its last
    segment lost, while [pos] is as before. *)
Theorem move_failure_shifts_body (heap : World.t) (s : Snake.t) :
  (Snake.body s = [] -> Snake.move heap s = (Raise IndexError, s, [])) /\
  (forall (a : pos_t) (rest : list pos_t),
     Snake.body s = a :: rest ->
     (Snake.world s = None ->
      Snake.move heap s
        = (Raise AttributeError, Snake.with_body (a :: removelast (a :: rest)) s, [])) /\
     (Snake.world s = Some TheWorld ->
      World.width heap = 0 \/ World.height heap = 0 ->
      Snake.move heap s
        = (Raise ZeroDivisionError, Snake.with_body (a :: removelast (a :: rest)) s, [])) /\
     length (a :: removelast (a :: rest)) = length (a :: rest) /\
     (rest <> [] -> (a :: removelast (a :: rest)) !! 1%nat = Some a)).
Proof.
  split.
  - intros Hb. rewrite move_eq. unfold translate_outcome. by rewrite Hb.
  - intros a rest Hb. split; [|split; [|split]].
    + intros Hw. rewrite move_eq. unfold translate_outcome. rewrite Hb, Hw.
      by destruct a.
    + intros Hw Hz. rewrite move_eq. unfold translate_outcome. rewrite Hb, Hw.
      destruct a as [x y].
      destruct (Z.eqb_spec (World.width heap) 0); [reflexivity|].
      destruct (Z.eqb_spec (World.height heap) 0); [reflexivity|]. lia.
    + cbn [length]. rewrite removelast_length. reflexivity.
    + intros Hne. destruct rest as [|b rest]; [done|]. reflexivity.
Qed.

Lemma move_failure_shifts_body_witness :
  let s := Snake.init (0, 0) None None 3 (1, 0) 1 None in
  Snake.move (World.init 0 5) (Snake.init (0, 0) None None 0 (1, 0) 1 None)
    = (Raise IndexError, Snake.init (0, 0) None None 0 (1, 0) 1 None, []) /\
  Snake.move (World.init 20 20) s
    = (Raise AttributeError, Snake.with_body [(0, 0); (0, 0); (0, 1)] s, []) /\
  Snake.move (World.init 0 5) (Snake.init (0, 0) (Some TheWorld) None 3 (1, 0) 1 None)
    = (Raise ZeroDivisionError,
       Snake.with_body [(0, 0); (0, 0); (0, 1)]
         (Snake.init (0, 0) (Some TheWorld) None 3 (1, 0) 1 None), []).
Proof.
  intros s. split; [|split].
  - apply (move_failure_shifts_body (World.init 0 5)). reflexivity.
  - apply (proj2 (move_failure_shifts_body (World.init 20 20) s) (0, 0) [(0, 1); (0, 2)]);
      reflexivity.
  - apply (proj2 (move_failure_shifts_body (World.init 0 5)
                    (Snake.init (0, 0) (Some TheWorld) None 3 (1, 0) 1 None))
             (0, 0) [(0, 1); (0, 2)]); [reflexivity | reflexivity | left; reflexivity].
Defined.

(** X12.  [place] on a snake sets [pos] and nothing else, the body staying
    where it is, so [pos] and the head part ways; and the next [move] that
    returns undoes the placement, giving exactly the snake a [move] without
    the [place] gives. *)
Theorem snake_place_is_overwritten (heap : World.t) (s : Snake.t) (px py : Z) :
  Snake.place px py s = (Ok tt, Snake.with_pos (px, py) s, []) /\
  Snake.body (Snake.with_pos (px, py) s) = Snake.body s /\
  (forall (s' : Snake.t) (o : list out),
     Snake.move heap s = (Ok tt, s', o) ->
     (Snake.place px py ;; Snake.move heap) s = (Ok tt, s', o)).
Proof.
  split; [unfold Snake.place; by msimpl|]. split; [reflexivity|].
  intros s' o. unfold Snake.place. msimpl. rewrite !move_eq. unfold translate_outcome.
  cbn [Snake.body Snake.world Snake.with_pos Snake.direction Snake.speed].
  destruct (Snake.body s) as [|[x y] rest]; [discriminate|].
  destruct (Snake.world s) as [[]|]; [|discriminate].
  destruct (World.width heap =? 0); [discriminate|].
  destruct (World.height heap =? 0); [discriminate|].
  intros [= <- <-]. reflexivity.
Qed.

Lemma snake_place_is_overwritten_witness :
  let s := Snake.init (0, 0) (Some TheWorld) None 3 (1, 0) 1 None in
  (Snake.place 7 7 ;; Snake.move (World.init 20 20)) s
    = (Ok tt, (Snake.move (World.init 20 20) s).1.2, []).
Proof.
  intros s.
  apply (proj2 (proj2 (snake_place_is_overwritten (World.init 20 20) s 7 7))).
  reflexivity.
Defined.

(** ** Food: the inherited [move] and [place] *)

(** X13.  The [move] a food item inherits translates its position with no
    wrap and no bound, and [place] sets it: two moves add up, a move and
    its opposite cancel, a move after a place is a place at the translated
    cell, and a place after a move forgets the move.  None of them raises
    or prints. *)
Theorem food_move_place (f : Food.t) :
  (forall dx dy : Z,
     Food.move dx dy f
       = (Ok tt, Food.with_pos ((Food.pos f).1 + dx, (Food.pos f).2 + dy) f, [])) /\
  (forall a b c d : Z,
     (Food.move a b ;; Food.move c d) f = Food.move (a + c) (b + d) f) /\
  (forall a b : Z, (Food.move a b ;; Food.move (- a) (- b)) f = (Ok tt, f, [])) /\
  (forall x y dx dy : Z,
     (Food.place x y ;; Food.move dx dy) f = Food.place (x + dx) (y + dy) f) /\
  (forall x y dx dy : Z, (Food.move dx dy ;; Food.place x y) f = Food.place x y f).
Proof.
  assert (Hmove : forall dx dy g,
    Food.move dx dy g
      = (Ok tt, Food.with_pos ((Food.pos g).1 + dx, (Food.pos g).2 + dy) g, [])).
  { intros dx dy g. unfold Food.move. msimpl. by destruct (Food.pos g). }
  split; [intros; apply Hmove|]. split; [|split; [|split]].
  - intros a b c d. erewrite bind_pure; [|apply Hmove]. rewrite !Hmove.
    cbn [Food.pos Food.with_pos fst snd]. do 2 f_equal.
    rewrite <- !Z.add_assoc. reflexivity.
  - intros a b. erewrite bind_pure; [|apply Hmove]. rewrite Hmove.
    cbn [Food.pos Food.with_pos fst snd]. do 2 f_equal.
    rewrite <- !Z.add_assoc, !Z.add_opp_diag_r, !Z.add_0_r.
    destruct f as [fw fh [x y] fwd fc fch]. reflexivity.
  - intros x y dx dy. unfold Food.place. msimpl. rewrite Hmove. reflexivity.
  - intros x y dx dy. erewrite bind_pure; [|apply Hmove].
    unfold Food.place. msimpl. reflexivity.
Qed.

(** ** Controller: the diagnostics dictionary *)

Lemma dict_get_del_eq {V} (name : string) (d : list (string * V)) :
  Controller.dict_get name (Controller.dict_del name d) = None.
Proof.
  unfold Controller.dict_del. induction d as [|[k v] d IH]; [reflexivity|].
  rewrite filter_cons. cbn [fst].
  destruct (String.eqb_spec k name) as [->|Hne]; cbn [negb].
  - destruct (decide (Is_true false)) as [[]|]. exact IH.
  - destruct (decide (Is_true true)) as [_|[]]; [|done].
    cbn [Controller.dict_get]. destruct (String.eqb_spec k name); [done|exact IH].
Qed.

Lemma dict_get_del_ne {V} (name name' : string) (d : list (string * V)) :
  name <> name' ->
  Controller.dict_get name' (Controller.dict_del name d) = Controller.dict_get name' d.
Proof.
  intros Hne. unfold Controller.dict_del. induction d as [|[k v] d IH]; [reflexivity|].
  rewrite filter_cons. cbn [fst Controller.dict_get].
  destruct (String.eqb_spec k name) as [->|Hk]; cbn [negb].
  - destruct (decide (Is_true false)) as [[]|].
    destruct (String.eqb_spec name name'); [done|exact IH].
  - destruct (decide (Is_true true)) as [_|[]]; [|done].
    cbn [Controller.dict_get]. by rewrite IH.
Qed.

Lemma dict_del_fresh {V} (name : string) (d : list (string * V)) :
  Controller.dict_get name d = None -> Controller.dict_del name d = d.
Proof.
  unfold Controller.dict_del. induction d as [|[k v] d IH]; [reflexivity|].
  cbn [Controller.dict_get]. rewrite filter_cons. cbn [fst].
  destruct (String.eqb_spec k name) as [->|Hk]; [discriminate|]. cbn [negb].
  intros Hd. destruct (decide (Is_true true)) as [_|[]]; [|done]. by rewrite IH.
Qed.

Lemma dict_del_set_fresh {V} (name : string) (v : V) (d : list (string * V)) :
  Controller.dict_get name d = None ->
  Controller.dict_del name (Controller.dict_set name v d) = d.
Proof.
  induction d as [|[k v'] d IH]; cbn [Controller.dict_get Controller.dict_set].
  - intros _. unfold Controller.dict_del. rewrite filter_cons. cbn [fst].
    rewrite String.eqb_refl. cbn [negb].
    by destruct (decide (Is_true false)) as [[]|].
  - destruct (String.eqb_spec k name) as [->|Hk]; [discriminate|].
    intros Hd. unfold Controller.dict_del in *. rewrite filter_cons. cbn [fst].
    destruct (String.eqb_spec k name); [done|]. cbn [negb].
    destruct (decide (Is_true true)) as [_|[]]; [|done]. by rewrite IH.
Qed.

Lemma dict_set_twice {V} (name : string) (v1 v2 : V) (d : list (string * V)) :
  Controller.dict_set name v2 (Controller.dict_set name v1 d) = Controller.dict_set name v2 d.
Proof.
  induction d as [|[k v'] d IH]; cbn [Controller.dict_set].
  - by rewrite String.eqb_refl.
  - destruct (String.eqb_spec k name) as [->|Hk]; cbn [Controller.dict_set].
    + by rewrite String.eqb_refl.
    + destruct (String.eqb_spec k name); [done|]. by rewrite IH.
Qed.

(** X14.  The diagnostics dictionary behaves as a dictionary.
    [_add_error(error, name)] binds [name] to the one-element list
    [[error]] and leaves every other name alone; adding twice under a name
    keeps the last.  [_clear_error(name)] never raises, a missing name
    being skipped: afterwards the name is unbound and the other names are
    as they were, and on a name that was unbound the controller is
    unchanged.  Adding a fresh name and clearing it restores the
    controller.  Neither touches anything but the dictionary. *)
Theorem diagnostics_dictionary (c : Controller.t) (name : string) :
  (forall r : list_ref,
     Controller._add_error r name c
       = (Ok tt, Controller.with_errors (Controller.dict_set name [r] (Controller.errors c)) c, [])
     /\ Controller.dict_get name (Controller.dict_set name [r] (Controller.errors c))
        = Some [r]
     /\ forall name' : string,
          name <> name' ->
          Controller.dict_get name' (Controller.dict_set name [r] (Controller.errors c))
            = Controller.dict_get name' (Controller.errors c)) /\
  (forall r1 r2 : list_ref,
     (Controller._add_error r1 name ;; Controller._add_error r2 name) c
       = Controller._add_error r2 name c) /\
  (Controller._clear_error name c
     = (Ok tt, Controller.with_errors (Controller.dict_del name (Controller.errors c)) c, [])
   /\ Controller.dict_get name (Controller.dict_del name (Controller.errors c)) = None
   /\ (forall name' : string,
         name <> name' ->
         Controller.dict_get name' (Controller.dict_del name (Controller.errors c))
           = Controller.dict_get name' (Controller.errors c))
   /\ (Controller.dict_get name (Controller.errors c) = None ->
       Controller._clear_error name c = (Ok tt, c, []))) /\
  (forall r : list_ref,
     Controller.dict_get name (Controller.errors c) = None ->
     (Controller._add_error r name ;; Controller._clear_error name) c = (Ok tt, c, [])).
Proof.
  assert (Hid : Controller.with_errors (Controller.errors c) c = c) by (by destruct c).
  assert (Hclear : forall c0,
    Controller._clear_error name c0
      = (Ok tt,
         Controller.with_errors (Controller.dict_del name (Controller.errors c0)) c0, [])).
  { intros c0. unfold Controller._clear_error. msimpl.
    destruct (Controller.dict_get name (Controller.errors c0)) eqn:Hg; msimpl; [reflexivity|].
    rewrite dict_del_fresh by done. by destruct c0. }
  split; [|split; [|split]].
  - intros r. split; [apply add_error_eq|].
    split; [apply dict_get_set_eq|]. intros name' Hne. by apply dict_get_set_ne.
  - intros r1 r2. erewrite bind_pure; [|apply add_error_eq]. rewrite !add_error_eq.
    cbn [Controller.errors Controller.with_errors]. by rewrite dict_set_twice.
  - split; [apply Hclear|]. split; [apply dict_get_del_eq|].
    split; [intros name' Hne; by apply dict_get_del_ne|].
    intros Hnone. rewrite Hclear, dict_del_fresh by done. by rewrite Hid.
  - intros r Hnone. erewrite bind_pure; [|apply add_error_eq]. rewrite Hclear.
    cbn [Controller.errors Controller.with_errors].
    rewrite dict_del_set_fresh by done. do 2 f_equal. by destruct c.
Qed.

Lemma diagnostics_dictionary_witness :
  let c := Controller.init 20 20 in
  (Controller._add_error ScreenErrors "screen" ;; Controller._clear_error "screen") c
    = (Ok tt, c, []) /\
  Controller._clear_error "nothing" c = (Ok tt, c, []).
Proof.
  intros c.
  pose proof (diagnostics_dictionary c "screen") as (_ & _ & _ & Hround).
  pose proof (diagnostics_dictionary c "nothing") as (_ & _ & (_ & _ & _ & Hmiss) & _).
  split; [apply Hround; reflexivity | apply Hmiss; reflexivity].
Defined.

(** ** Controller: input, exit signal, loop *)

(** X15.  [get_input] never raises and prints nothing, whatever the buffer
    holds: it drops the [None] entries in front, pops the first character
    after them and returns it, the entries behind staying in order; and it
    returns [None] only when no character was there, having emptied the
    buffer.  Nothing but the buffer changes. *)
Theorem get_input_skips_none (c : Controller.t) :
  exists (nones rest : list (option string)) (answer : option string),
    Controller.get_input c = (Ok answer, Controller.with_input_buffer rest c, []) /\
    Forall (fun e => e = None) nones /\
    Controller._input_buffer c
      = nones ++ match answer with Some k => [Some k] | None => [] end ++ rest /\
    (answer = None -> rest = []).
Proof.
  destruct (first_key_split (Controller._input_buffer c)) as (nones & Hn & Hl & Hr).
  exists nones, (first_key (Controller._input_buffer c)).2,
    (first_key (Controller._input_buffer c)).1.
  split; [apply get_input_eq|done].
Qed.

Lemma get_input_skips_none_witness :
  let c := Controller.with_input_buffer [None; Some "a"; None; Some "d"]
             (Controller.init 20 20) in
  exists (nones rest : list (option string)) (answer : option string),
    Controller.get_input c = (Ok answer, Controller.with_input_buffer rest c, []) /\
    Forall (fun e => e = None) nones /\
    Controller._input_buffer c
      = nones ++ match answer with Some k => [Some k] | None => [] end ++ rest /\
    (answer = None -> rest = []).
Proof. intros c. apply (get_input_skips_none c). Defined.

(** X16.  [set_exit_signal] takes effect at the next exit check: the check
    then answers true exactly when the new signal is in the input buffer,
    wherever it stands, and changes nothing. *)
Theorem set_exit_signal_then_check (c : Controller.t) (signal : string) :
  exists b : bool,
    (Controller.set_exit_signal signal ;; Controller._received_exit_signal) c
      = (Ok b, Controller.with_exit_signal signal c, []) /\
    (b = true <-> Some signal ∈ Controller._input_buffer c).
Proof.
  eexists. split.
  - unfold Controller.set_exit_signal. msimpl. rewrite received_exit_signal_eq.
    reflexivity.
  - apply existsb_is_exit.
Qed.

Lemma set_exit_signal_then_check_witness :
  let c := Controller.with_input_buffer [Some "w"; Some "x"] (Controller.init 20 20) in
  exists b : bool,
    (Controller.set_exit_signal "x" ;; Controller._received_exit_signal) c
      = (Ok b, Controller.with_exit_signal "x" c, []) /\
    (b = true <-> Some "x" ∈ Controller._input_buffer c).
Proof. intros c. apply (set_exit_signal_then_check c "x"). Defined.

Lemma loop_app (polls1 polls2 : list poll) : forall c : Controller.t,
  Controller.loop (polls1 ++ polls2) c =
    match Controller.loop polls1 c with
    | (Ok Controller.RUNNING, c', o) =>
        ((Controller.loop polls2 c').1.1, (Controller.loop polls2 c').1.2,
         o ++ (Controller.loop polls2 c').2)
    | r => r
    end.
Proof.
  induction polls1 as [|p polls1 IH]; intros c.
  - cbn. by destruct (Controller.loop polls2 c) as [[r c'] o].
  - cbn [app Controller.loop]. unfold bind.
    destruct (Controller.iteration p c) as [[[[|]|e] c1] o1]; [reflexivity| |reflexivity].
    rewrite IH.
    destruct (Controller.loop polls1 c1) as [[[[|]|e] c2] o2]; [|reflexivity..].
    cbn [fst snd].
    destruct (Controller.loop polls2 c2) as [[r c3] o3]. cbn [fst snd].
    by rewrite app_assoc.
Qed.

(** X17.  The loop takes no poll after it has stopped or raised: when a
    run over some polls ends [TERMINATED] or raises, the run over those
    polls followed by any others is the same run; and when it is still
    [RUNNING] the longer run is the first followed by a run over the
    others from the state reached, the outputs one after the other. *)
Theorem loop_ignores_later_polls (polls1 polls2 : list poll) (c c' : Controller.t)
    (o : list out) :
  (Controller.loop polls1 c = (Ok Controller.TERMINATED, c', o) ->
   Controller.loop (polls1 ++ polls2) c = (Ok Controller.TERMINATED, c', o)) /\
  (forall e : exn,
     Controller.loop polls1 c = (Raise e, c', o) ->
     Controller.loop (polls1 ++ polls2) c = (Raise e, c', o)) /\
  (Controller.loop polls1 c = (Ok Controller.RUNNING, c', o) ->
   Controller.loop (polls1 ++ polls2) c
     = ((Controller.loop polls2 c').1.1, (Controller.loop polls2 c').1.2,
        o ++ (Controller.loop polls2 c').2)).
Proof.
  split; [|split].
  - intros H. by rewrite loop_app, H.
  - intros e H. by rewrite loop_app, H.
  - intros H. by rewrite loop_app, H.
Qed.

Lemma loop_ignores_later_polls_witness :
  let c := Controller.init 20 20 in
  let r := Controller.loop [Key (Some "q")] c in
  Controller.loop ([Key (Some "q")] ++ [Key (Some "w"); Interrupt]) c
    = (Ok Controller.TERMINATED, r.1.2, r.2).
Proof.
  intros c r.
  apply (proj1 (loop_ignores_later_polls [Key (Some "q")] [Key (Some "w"); Interrupt]
                  c r.1.2 r.2)).
  vm_compute. reflexivity.
Defined.

(** [m] takes every state of [P] to one of [Q], whether it returns or
    raises, when it goes through [R] on the way. *)
Lemma leads_bind {S A B} (P R Q : S -> Prop) (m : M S A) (f : A -> M S B) :
  (forall s, P s -> R (m s).1.2) ->
  (forall s, R s -> Q s) ->
  (forall a s, R s -> Q (f a s).1.2) ->
  forall s, P s -> Q (bind m f s).1.2.
Proof.
  intros Hm HRQ Hf s Hs. rewrite bind_state. specialize (Hm s Hs).
  destruct (m s) as [[[a|e] s1] o1]; cbn [fst snd] in *; [by apply Hf|by apply HRQ].
Qed.

Lemma drained_on_screen {A} (m : M Screen.t A) : preserves drained (Controller.on_screen m).
Proof. apply preserves_zoom_frame. by intros. Qed.

Lemma update_drains (c : Controller.t) : at_most_one c -> drained (Controller.update c).1.2.
Proof.
  intros [Hlen Hnone]. rewrite update_unfold. cbv zeta.
  assert (Hrest : (first_key (Controller._input_buffer c)).2 = []).
  { destruct (Controller._input_buffer c) as [|[k|] [|e l]]; try reflexivity.
    - rewrite !len_cons in Hlen. pose proof (len_nonneg l). lia.
    - exfalso. apply Hnone. apply list_elem_of_here. }
  rewrite Hrest.
  set (c2 := turned _ _).
  assert (Hc2 : drained c2) by reflexivity.
  refine (preserves_bind drained _ _ _ _ c2 Hc2).
  - apply inv_on_actor. by intros.
  - intros _. apply frame_clear_draw. by intros.
Qed.

Lemma drained_at_most_one (c : Controller.t) : drained c -> at_most_one c.
Proof.
  unfold drained, at_most_one. intros ->. split; [unfold len; simpl; lia|].
  apply not_elem_of_nil.
Qed.

Lemma buffer_input_from_drained (p : poll) (c : Controller.t) :
  drained c -> at_most_one (Controller._buffer_input p c).1.2.
Proof.
  intros Hc. destruct p as [ch|]; [|by apply drained_at_most_one].
  unfold Controller._buffer_input, Controller.getch. msimpl.
  unfold drained in Hc. rewrite Hc.
  destruct (Controller._MAX_INPUT_BUFFER c <? len (@nil (option string))).
  - unfold pop0. msimpl. cbn [fst snd]. by apply drained_at_most_one.
  - msimpl. destruct ch as [k|]; msimpl; unfold Controller._add_error; msimpl;
      cbn [fst snd]; unfold at_most_one; cbn.
    + rewrite Hc. split; [unfold len; simpl; lia|].
      apply not_elem_of_cons. split; [done|apply not_elem_of_nil].
    + rewrite Hc. split; [unfold len; simpl; lia|apply not_elem_of_nil].
Qed.

Lemma at_most_one_iteration (p : poll) : preserves at_most_one (Controller.iteration p).
Proof.
  unfold Controller.iteration, preserves.
  refine (leads_bind at_most_one drained at_most_one _ _ _ _ _);
    [apply update_drains|apply drained_at_most_one|intros _].
  refine (leads_bind drained drained at_most_one _ _ _ _ _);
    [apply drained_on_screen|apply drained_at_most_one|intros _].
  refine (leads_bind drained drained at_most_one _ _ _ _ _);
    [apply inv_add_error; by intros|apply drained_at_most_one|intros _].
  refine (leads_bind drained drained at_most_one _ _ _ _ _);
    [apply inv_show_error|apply drained_at_most_one|intros _].
  refine (leads_bind drained at_most_one at_most_one _ _ _ _ _);
    [apply buffer_input_from_drained|done|intros _].
  apply inv_received_exit_signal.
Qed.

Lemma at_most_one_start (polls : list poll) : preserves at_most_one (Controller.start polls).
Proof.
  unfold Controller.start. apply preserves_bind.
  - apply preserves_zoom_frame. by intros.
  - intros _. induction polls as [|p polls IH]; [apply preserves_ret|].
    cbn [Controller.loop]. apply preserves_bind; [apply at_most_one_iteration|].
    intros [|]; [apply preserves_ret|exact IH].
Qed.

(** X18.  In the game loop the input buffer never builds up: every update
    consumes the character the poll before it appended, so between
    iterations the buffer holds at most one entry, and it holds none from
    the update to the next poll.  This is kept by every iteration, returning
    or raising, and holds throughout any run started on a fresh controller;
    there the bound of ten entries is never reached, so no poll of the
    loop ever evicts an entry. *)
Theorem input_buffer_never_builds_up :
  (forall (c : Controller.t) (p : poll),
     at_most_one c ->
     drained (Controller.update c).1.2 /\ at_most_one (Controller.iteration p c).1.2) /\
  (forall (c : Controller.t) (polls : list poll),
     at_most_one c -> at_most_one (Controller.start polls c).1.2) /\
  (forall (w h : Z) (polls : list poll),
     let c' := (Controller.start polls (Controller.init w h)).1.2 in
     len (Controller._input_buffer c') <= 1 /\
     Controller._MAX_INPUT_BUFFER c' = 10 /\
     evict (Controller._MAX_INPUT_BUFFER c') (Controller._input_buffer c')
       = Controller._input_buffer c').
Proof.
  split; [|split].
  - intros c p Hc. split; [by apply update_drains|by apply at_most_one_iteration].
  - intros c polls. apply at_most_one_start.
  - intros w h polls c'.
    assert (H1 : at_most_one c').
    { apply at_most_one_start. by apply drained_at_most_one. }
    assert (H2 : Controller._MAX_INPUT_BUFFER c' = 10).
    { apply (buffer_inv_start (fun _ m => m = 10)); by intros. }
    destruct H1 as [H1 _]. split; [exact H1|]. split; [exact H2|].
    unfold evict. rewrite H2.
    destruct (Z.ltb_spec 10 (len (Controller._input_buffer c'))); [lia|reflexivity].
Qed.

Lemma input_buffer_never_builds_up_witness :
  let c := Controller.with_input_buffer [Some "w"] (Controller.init 20 20) in
  drained (Controller.update c).1.2 /\
  at_most_one (Controller.iteration (Key (Some "a")) c).1.2.
Proof.
  intros c. apply (proj1 input_buffer_never_builds_up c (Key (Some "a"))).
  split; [unfold len; simpl; lia|].
  apply not_elem_of_cons. split; [done|apply not_elem_of_nil].
Defined.

(** ** Controller: what a run never changes *)

Lemma fixed_part_start (k : Z * Z * World.t * string * Food.t * Z) (polls : list poll) :
  preserves (fun c => fixed_part c = k) (Controller.start polls).
Proof.
  apply inv_start; try (intros; apply preserves_zoom_frame; by intros); try (by intros).
  - intros c Hc. by rewrite get_input_eq.
  - intros p. unfold Controller._buffer_input, Controller.getch, Controller._add_error.
    pres; assumption.
Qed.

Lemma fixed_part_iteration (k : Z * Z * World.t * string * Food.t * Z) (p : poll) :
  preserves (fun c => fixed_part c = k) (Controller.iteration p).
Proof.
  apply inv_iteration; try (intros; apply preserves_zoom_frame; by intros); try (by intros).
  - intros c Hc. by rewrite get_input_eq.
  - intros p'. unfold Controller._buffer_input, Controller.getch, Controller._add_error.
    pres; assumption.
Qed.

Lemma move_actor_fixed (heap : World.t) (a : Snake.t) :
  actor_fixed_part (Snake.move heap a).1.2 = actor_fixed_part a.
Proof.
  rewrite move_eq. unfold translate_outcome.
  destruct (Snake.body a) as [|[x y] rest]; [reflexivity|].
  destruct (Snake.world a) as [[]|] eqn:Hw; [|reflexivity].
  destruct (World.width heap =? 0); [reflexivity|].
  destruct (World.height heap =? 0); reflexivity.
Qed.

Lemma actor_fixed_update (c : Controller.t) :
  actor_fixed_part (Controller.actor (Controller.update c).1.2)
    = actor_fixed_part (Controller.actor c).
Proof.
  rewrite update_unfold. cbv zeta. set (c2 := turned _ _).
  change (actor_fixed_part (Controller.actor c)) with (actor_fixed_part (Controller.actor c2)).
  rewrite bind_state. unfold Controller.on_actor at 1 2 3. unfold zoom.
  pose proof (move_actor_fixed (Controller.world c2) (Controller.actor c2)) as Hmove.
  destruct (Snake.move (Controller.world c2) (Controller.actor c2)) as [[[[]|e] a] o];
    cbn [fst snd] in *; [|exact Hmove].
  rewrite <- Hmove.
  apply (frame_clear_draw
           (fun c0 => actor_fixed_part (Controller.actor c0) = actor_fixed_part a));
    [by intros|reflexivity].
Qed.

Lemma actor_fixed_iteration (k : Z * Z * option world_ref * color_t * string * Z) (p : poll) :
  preserves (fun c => actor_fixed_part (Controller.actor c) = k) (Controller.iteration p).
Proof.
  unfold Controller.iteration, preserves.
  refine (leads_bind (fun c => actor_fixed_part (Controller.actor c) = k)
            (fun c => actor_fixed_part (Controller.actor c) = k)
            (fun c => actor_fixed_part (Controller.actor c) = k) _ _ _ _ _).
  - intros c Hc. by rewrite actor_fixed_update.
  - done.
  - intros _ c Hc.
    by rewrite (after_update_keeps_actor p (Controller.actor c) c eq_refl).
Qed.

(** X19.  A run of the game loop assigns nothing but the actor's position,
    body and direction, the pixels and error list of the screen, the input
    buffer and the diagnostics: whether it returns or raises, the
    dimensions, the world, the exit signal, the food and the bound of the
    buffer are as they were, and so are the screen's dimensions, background
    pixel and background character and the actor's speed, glyph and
    world. *)
Theorem run_keeps_configuration (c : Controller.t) :
  (forall polls : list poll,
     fixed_part (Controller.start polls c).1.2 = fixed_part c /\
     screen_fixed_part (Controller.screen (Controller.start polls c).1.2)
       = screen_fixed_part (Controller.screen c)) /\
  (forall p : poll,
     fixed_part (Controller.iteration p c).1.2 = fixed_part c /\
     screen_fixed_part (Controller.screen (Controller.iteration p c).1.2)
       = screen_fixed_part (Controller.screen c) /\
     actor_fixed_part (Controller.actor (Controller.iteration p c).1.2)
       = actor_fixed_part (Controller.actor c)).
Proof.
  split.
  - intros polls. split; [by apply (fixed_part_start (fixed_part c))|].
    apply (screen_inv_start
             (fun s => screen_fixed_part s = screen_fixed_part (Controller.screen c)));
      by intros.
  - intros p. split; [by apply (fixed_part_iteration (fixed_part c))|]. split.
    + apply (screen_inv_iteration
               (fun s => screen_fixed_part s = screen_fixed_part (Controller.screen c)));
        by intros.
    + by apply (actor_fixed_iteration (actor_fixed_part (Controller.actor c))).
Qed.

(** ** Controller: the diagnostics show the live buffer *)

Lemma dict_set_other_elem {V} (name name' : string) (v v' : V) (d : list (string * V)) :
  name <> name' -> (name', v') ∈ d -> (name', v') ∈ Controller.dict_set name v d.
Proof.
  intros Hne. induction d as [|[k w] d IH]; intros Hin; [by apply elem_of_nil in Hin|].
  cbn [Controller.dict_set].
  apply elem_of_cons in Hin as [Heq|Hin].
  - injection Heq as <- <-. destruct (String.eqb_spec name' name); [done|].
    apply list_elem_of_here.
  - destruct (String.eqb_spec k name).
    + by apply list_elem_of_further.
    + apply list_elem_of_further. by apply IH.
Qed.

Lemma update_frame (c : Controller.t) :
  Controller._input_buffer (Controller.update c).1.2
    = (first_key (Controller._input_buffer c)).2 /\
  Controller.errors (Controller.update c).1.2 = Controller.errors c.
Proof.
  rewrite update_unfold. cbv zeta. set (c2 := turned _ _).
  refine (preserves_bind
            (fun c0 => Controller._input_buffer c0 = (first_key (Controller._input_buffer c)).2
                       /\ Controller.errors c0 = Controller.errors c) _ _ _ _ c2 _).
  - apply inv_on_actor. by intros.
  - intros _. apply frame_clear_draw. by intros.
  - done.
Qed.

(** X20.  The diagnostics hold the input buffer itself, not a copy: once an
    earlier poll has stored it under ["input buffer"], the line an iteration
    prints for it shows the buffer as the update of that iteration left it,
    the consumed character already gone, and not the contents it had when it
    was stored. *)
Theorem input_buffer_line_is_live (c c' : Controller.t) (p : poll) (stop : bool)
    (o : list out) :
  Controller.iteration p c = (Ok stop, c', o) ->
  ("input buffer", [InputBuffer]) ∈ Controller.errors c ->
  Printed [VStr "input buffer"; VStr ": ";
           VList [buffer_value (first_key (Controller._input_buffer c)).2]] ∈ o.
Proof.
  intros Hit Hin. unfold Controller.iteration in Hit.
  apply bind_ok_inv in Hit as ([] & c1 & o1 & ? & Hup & Hit & ->).
  apply bind_ok_inv in Hit as ([] & c2 & o2 & ? & Hshow & Hit & ->).
  apply bind_ok_inv in Hit as ([] & c3 & o3 & ? & Hget & Hit & ->).
  apply bind_ok_inv in Hit as ([] & c4 & o4 & ? & Hprint & _ & ->).
  pose proof (update_frame c) as [Hbuf Herr]. rewrite Hup in Hbuf, Herr.
  cbn [fst snd] in Hbuf, Herr.
  unfold Controller.on_screen, zoom in Hshow.
  destruct (Screen.show (Controller.screen c1)) as [[r t] oo]. injection Hshow as -> <- <-.
  unfold Controller._get_errors in Hget. rewrite add_error_eq in Hget.
  injection Hget as <- <-.
  rewrite show_error_eq in Hprint. injection Hprint as _ <-.
  rewrite !elem_of_app. right. right. right. left.
  apply elem_of_cons. right. apply elem_of_app. left.
  cbn [Controller.errors Controller.with_errors Controller.with_screen].
  replace (Printed [VStr "input buffer"; VStr ": ";
                    VList [buffer_value (first_key (Controller._input_buffer c)).2]])
    with (diagnostic_line
            (Controller.with_errors
               (Controller.dict_set "screen" [ScreenErrors] (Controller.errors c1))
               (Controller.with_screen t c1))
            ("input buffer", [InputBuffer])).
  - apply list_elem_of_fmap_2. apply dict_set_other_elem; [discriminate|].
    by rewrite Herr.
  - unfold diagnostic_line, buffer_value. cbn. by rewrite Hbuf.
Qed.

Lemma input_buffer_line_is_live_witness :
  let c := (Controller.iteration (Key (Some "w")) (Controller.init 20 20)).1.2 in
  let r := Controller.iteration (Key None) c in
  Controller._input_buffer c = [Some "w"] /\
  Printed [VStr "input buffer"; VStr ": "; VList [buffer_value []]] ∈ r.2.
Proof.
  intros c r. split; [reflexivity|].
  apply (input_buffer_line_is_live c r.1.2 (Key None) false r.2).
  - vm_compute. reflexivity.
  - vm_compute. apply list_elem_of_further, list_elem_of_here.
Defined.

(** ** Controller: what a frame shows *)

Lemma set_pixel_cell (R C : nat) (x y : Z) (p : pixel_t) (s : Screen.t) :
  screen_ok R C s -> safe_pos R C (x, y) ->
  exists s' : Screen.t,
    Screen.set_pixel x y p s = (Ok tt, s', []) /\
    screen_ok R C s' /\
    screen_fixed_part s' = screen_fixed_part s /\
    forall cx cy : nat, (cx < C)%nat -> (cy < R)%nat ->
      cell (Screen.pixels s') cx cy =
        if decide ((x, y) = at_cell cx cy) then Some p else cell (Screen.pixels s) cx cy.
Proof.
  intros Hs Hpos. pose proof Hs as (HR & Hg & Hw & Hh).
  unfold safe_pos in Hpos. cbn [fst snd] in Hpos.
  destruct (decide (0 <= y < Z.of_nat R /\ 0 <= x < Z.of_nat C)) as [[Hy Hx]|Hout].
  - destruct (set_pixel_inside s R C x y p Hg Hx Hy) as (row & Hrow & E).
    eexists. split; [exact E|].
    assert (Hlen : (Z.to_nat x < length row)%nat).
    { destruct Hg as [_ HC]. rewrite (Forall_lookup_1 _ _ _ _ HC Hrow). lia. }
    destruct (cell_insert _ _ (Z.to_nat x) (Z.to_nat y) p Hrow Hlen) as [H1 H2].
    split; [|split; [reflexivity|]].
    + split; [exact HR|]. split; [|done]. cbn. by apply grid_insert.
    + intros cx cy Hcx Hcy. cbn [Screen.pixels Screen.with_pixels].
      destruct (decide ((x, y) = at_cell cx cy)) as [Heq|Hne].
      * injection Heq as Hx' Hy'.
        replace cx with (Z.to_nat x) by lia. replace cy with (Z.to_nat y) by lia.
        exact H1.
      * apply H2. intros [= -> ->]. apply Hne. unfold at_cell. f_equal; lia.
  - eexists. split; [apply (set_pixel_outside s R C); [exact Hg|exact HR|lia]|].
    split; [done|]. split; [reflexivity|].
    intros cx cy Hcx Hcy. cbn [Screen.pixels Screen.with_errors].
    destruct (decide ((x, y) = at_cell cx cy)) as [[= -> ->]|Hne]; [lia|reflexivity].
Qed.

Lemma draw_cells (R C : nat) (g : pixel_t) (l : list pos_t) : forall s : Screen.t,
  screen_ok R C s -> Forall (safe_pos R C) l ->
  exists s' : Screen.t,
    for_ l (fun pos => Screen.set_pixel pos.1 pos.2 g) s = (Ok tt, s', []) /\
    screen_ok R C s' /\
    screen_fixed_part s' = screen_fixed_part s /\
    forall cx cy : nat, (cx < C)%nat -> (cy < R)%nat ->
      cell (Screen.pixels s') cx cy =
        if decide (at_cell cx cy ∈ l) then Some g else cell (Screen.pixels s) cx cy.
Proof.
  induction l as [|[x y] l IH]; intros s Hs Hl.
  - exists s. split; [reflexivity|]. split; [exact Hs|]. split; [reflexivity|].
    intros cx cy _ _. case_decide as Hin; [|reflexivity].
    by apply elem_of_nil in Hin.
  - apply Forall_cons in Hl as [Hp Hl].
    destruct (set_pixel_cell R C x y g s Hs Hp) as (s1 & E1 & Hs1 & Hf1 & Hc1).
    destruct (IH s1 Hs1 Hl) as (s2 & E2 & Hs2 & Hf2 & Hc2).
    exists s2. split.
    { cbn [for_ fst snd]. erewrite bind_pure; [|exact E1]. exact E2. }
    split; [exact Hs2|]. split; [by rewrite Hf2|].
    intros cx cy Hcx Hcy. rewrite Hc2, Hc1 by done.
    repeat case_decide; try reflexivity; exfalso.
    + apply H0. by apply list_elem_of_further.
    + apply H1. rewrite H0. apply list_elem_of_here.
    + apply elem_of_cons in H1 as [Heq|Hin]; [by apply H0|by apply H].
Qed.

(** X21.  On a safe controller whose world holds the actor and then the
    food, as the constructor builds it, an update returns and leaves a
    frame that is the picture of the world: every cell of the grid shows
    the food where the food is, else the actor's glyph where a segment of
    the moved body lies, else the background pixel; the food, drawn last,
    covers the actor. *)
Theorem update_renders_world (R C : nat) (c : Controller.t) :
  safe R C c ->
  World.objects (Controller.world c) = [ActorRef; FoodRef] ->
  exists (c' : Controller.t) (o : list out),
    Controller.update c = (Ok tt, c', o) /\
    forall cx cy : nat, (cx < C)%nat -> (cy < R)%nat ->
      cell (Screen.pixels (Controller.screen c')) cx cy = Some (expected_pixel c' cx cy).
Proof.
  intros Hc Hobjs. rewrite update_unfold. cbv zeta.
  set (c2 := turned _ _).
  assert (Hc2 : safe R C c2) by (apply safe_turned, Hc).
  destruct (move_returns R C c2 Hc2) as (a & Emove & Ha).
  erewrite bind_pure; cycle 1.
  { unfold Controller.on_actor, zoom. rewrite Emove. reflexivity. }
  set (c3 := Controller.with_actor a c2) in *.
  pose proof Ha as (Hscr & _ & _ & _ & _ & Hbody & Hfood & _).
  destruct (clear_returns R C _ Hscr) as ([] & s4 & o4 & Eclear & Hs4).
  assert (Hclear : Screen.clear (Controller.screen c3)
    = (Ok tt, Screen.with_pixels
                (Screen.blank (Screen.D_PIXEL (Controller.screen c3))
                   (Screen.width (Controller.screen c3))
                   (Screen.height (Controller.screen c3))) (Controller.screen c3), []))
    by (unfold Screen.clear; by msimpl).
  rewrite Hclear in Eclear. injection Eclear as <- <-.
  erewrite bind_pure; cycle 1.
  { unfold Controller.on_screen, zoom. rewrite Hclear. reflexivity. }
  set (s4 := Screen.with_pixels _ _) in *.
  unfold Controller.world_draw. rewrite bind_get.
  change (World.objects (Controller.world (Controller.with_screen s4 c3)))
    with (World.objects (Controller.world c)).
  rewrite Hobjs. cbn [for_].
  destruct (draw_cells R C (Some (Snake.character a), (1, 1, 1)) (Snake.body a) s4 Hs4 Hbody)
    as (s5 & E5 & Hs5 & Hf5 & Hc5).
  erewrite bind_pure; cycle 1.
  { rewrite bind_get. unfold Controller.on_screen, zoom.
    cbn [Controller.screen Controller.with_screen Controller.actor Controller.with_actor].
    change (Controller.actor c3) with a. unfold Snake.draw. rewrite E5. reflexivity. }
  destruct (set_pixel_cell R C (Food.pos (Controller.food c)).1 (Food.pos (Controller.food c)).2
              (Some (Food.character (Controller.food c)), (1, 1, 1)) s5 Hs5)
    as (s6 & E6 & Hs6 & Hf6 & Hc6).
  { change (Controller.food c3) with (Controller.food c) in Hfood.
    destruct (Food.pos (Controller.food c)). exact Hfood. }
  erewrite bind_pure; cycle 1.
  { rewrite bind_get. unfold Controller.on_screen, zoom, Food.draw.
    cbn [Controller.screen Controller.with_screen Controller.food Controller.with_actor].
    change (Controller.food c3) with (Controller.food c).
    rewrite E6. reflexivity. }
  eexists _, []. split; [reflexivity|].
  intros cx cy Hcx Hcy.
  cbn [Controller.screen Controller.with_screen].
  rewrite Hc6, Hc5 by done. unfold expected_pixel.
  cbn [Controller.screen Controller.with_screen Controller.food Controller.actor
       Controller.with_actor].
  change (Controller.food c3) with (Controller.food c).
  change (Controller.actor c3) with a.
  destruct (Food.pos (Controller.food c)) as [fx fy] eqn:Hfp. cbn [fst snd].
  assert (Hd : Screen.D_PIXEL s6 = Screen.D_PIXEL (Controller.screen c3)).
  { rewrite Hf5 in Hf6. by injection Hf6. }
  destruct Hscr as (_ & _ & Hw & Hh).
  change (Controller.screen c3) with (Controller.screen c) in Hw, Hh, Hd.
  repeat case_decide; try reflexivity; try done.
  unfold s4. cbn [Screen.pixels Screen.with_pixels].
  rewrite blank_cell by lia. by rewrite Hd.
Qed.

Lemma update_renders_world_witness :
  exists (c' : Controller.t) (o : list out),
    Controller.update (Controller.init 20 20) = (Ok tt, c', o) /\
    forall cx cy : nat, (cx < 20)%nat -> (cy < 20)%nat ->
      cell (Screen.pixels (Controller.screen c')) cx cy = Some (expected_pixel c' cx cy).
Proof.
  apply (update_renders_world 20 20 (Controller.init 20 20)); [apply safe_init|reflexivity].
Defined.

(** ** Controller: a key steers one iteration late *)





